(** * ICPC scoreboard: a shallow embedding of [src/main.cpp]

    The program keeps a table of teams, applies submissions to the
    per-team statistics, sorts a list of team names on FLUSH and SCROLL,
    and answers two queries.  Every member function of [ICPCSystem] is
    translated below into a function from the system state to the new
    state and the list of records it writes to [cout].

    Conventions of the embedding.
    - [int]: the penalty is a sum of times that the input chooses, so
      its arithmetic is embedded as the machine does it ([int_add],
      [int_mul]: two's complement, modulo [2^32]).  The other [int]s
      (the solved count, the wrong-submission counters, the rank) count
      submissions or teams of the input one by one; they are kept as
      integers of [Z], which is what the program computes on every input
      of fewer than [2^31] lines.
    - [std::map<string, V>] is a [gmap string V].  [operator[]] on an
      absent key inserts a value-initialised entry; [map_index] writes
      that out.
    - [std::vector] is a [list]; [push_back] appends at the end.
    - [std::sort] is specified by its result only (a permutation of the
      input that is ordered by the comparator).  It is embedded as an
      insertion sort; [std_sort_unique] shows that for a comparator that
      is a strict total order on the sorted values every ordered
      permutation is that same list.
    - Rocq string literals have no escape sequences, so ["\n"] below is
      the two characters backslash and [n], exactly the bytes that the
      C++ literal ["\\n"] of the source denotes. *)

From Stdlib Require Import ZArith String Ascii List Lia Permutation Sorted.
From Stdlib Require Import DecimalString DecimalPos.
From stdpp Require Import gmap strings list fin_maps sorting.

Local Open Scope string_scope.
Local Open Scope list_scope.
Local Open Scope Z_scope.

(** ** Data model *)

Record Submission := Build_Submission {
  team_name : string;
  problem_name : string;
  status : string;
  time : Z
}.

Record Team := Build_Team {
  name : string;
  solved_problems : Z;
  penalty_time : Z;
  wrong_submissions : gmap string Z;
  first_ac_time : gmap string Z;
  solve_times : list Z;
  submissions : list Submission
}.

(** The value-initialised [Team] that [teams[k]] creates for a new key. *)
Definition Team_default : Team :=
  {| name := "";
     solved_problems := 0;
     penalty_time := 0;
     wrong_submissions := ∅;
     first_ac_time := ∅;
     solve_times := [];
     submissions := [] |}.

(** [duration_time] has no initialiser in the class: it is indeterminate
    until START stores a value, and it is never read. *)
Record ICPCSystem := Build_ICPCSystem {
  duration_time : option Z;
  is_frozen : bool;
  teams : gmap string Team;
  team_order : list string;
  all_submissions : list Submission
}.

Definition ICPCSystem_init : ICPCSystem :=
  {| duration_time := None;
     is_frozen := false;
     teams := ∅;
     team_order := [];
     all_submissions := [] |}.

(** What one output statement writes to [cout]. *)
Inductive output :=
| Text (s : string)
| ScoreLine (team : string) (rank solved penalty : Z)
| RankingLine (team : string) (ranking : Z)
| SubmissionLine (sub : Submission).

Definition string_of_Z (z : Z) : string :=
  NilZero.string_of_int (Z.to_int z).

Definition render (o : output) : string :=
  match o with
  | Text s => s
  | ScoreLine n r s p =>
      String.concat " " [n; string_of_Z r; string_of_Z s; string_of_Z p]
        +:+ "\n"
  | RankingLine n r => "[" +:+ n +:+ "] NOW AT RANKING " +:+ string_of_Z r +:+ "\n"
  | SubmissionLine sub =>
      String.concat " "
        [team_name sub; problem_name sub; status sub; string_of_Z (time sub)]
        +:+ "\n"
  end.

(** ** [int] arithmetic

    The result of an addition or multiplication of two [int]s, as the
    compiled program computes it: the mathematical result brought into
    the range of [int] modulo [2^32].  (The C++ standard itself leaves
    signed overflow undefined.) *)

Definition INT_MAX : Z := 2147483647.
Definition INT_MIN : Z := -2147483648.

Definition wrap_int (z : Z) : Z := (z - INT_MIN) mod 4294967296 + INT_MIN.

Definition int_add (a b : Z) : Z := wrap_int (a + b).
Definition int_mul (a b : Z) : Z := wrap_int (a * b).

(** ** Library behaviour the program relies on *)

(** [m[k]]: the value read and the map afterwards. *)
Definition map_index {V} (dflt : V) (m : gmap string V) (k : string)
  : V * gmap string V :=
  match m !! k with
  | Some v => (v, m)
  | None => (dflt, <[k := dflt]> m)
  end.

Section StdSort.
Context {A : Type} (comp : A → A → bool).

Fixpoint sort_insert (x : A) (l : list A) : list A :=
  match l with
  | [] => [x]
  | y :: l' => if comp x y then x :: y :: l' else y :: sort_insert x l'
  end.

Fixpoint std_sort (l : list A) : list A :=
  match l with
  | [] => []
  | x :: l' => sort_insert x (std_sort l')
  end.

(** [x] is not after [y]. *)
Definition not_after (x y : A) : Prop := comp y x = false.
End StdSort.

(** [sort(v.rbegin(), v.rend())]: the reversed view of [v] is put in
    ascending order. *)
Definition sort_reversed (v : list Z) : list Z :=
  rev (std_sort Z.ltb (rev v)).

(** ** [ICPCSystem::update_team_stats] *)

Definition update_team_stats (team : Team) (sub : Submission) : Team :=
  let history := submissions team ++ [sub] in
  if String.eqb (status sub) "Accepted" then
    match first_ac_time team !! problem_name sub with
    | None =>
        let '(wrong_count, wrong) :=
          map_index 0 (wrong_submissions team) (problem_name sub) in
        let problem_penalty := int_add (int_mul 20 wrong_count) (time sub) in
        {| name := name team;
           solved_problems := solved_problems team + 1;
           penalty_time := int_add (penalty_time team) problem_penalty;
           wrong_submissions := wrong;
           first_ac_time := <[problem_name sub := time sub]> (first_ac_time team);
           solve_times := sort_reversed (solve_times team ++ [time sub]);
           submissions := history |}
    | Some _ =>
        {| name := name team;
           solved_problems := solved_problems team;
           penalty_time := penalty_time team;
           wrong_submissions := wrong_submissions team;
           first_ac_time := first_ac_time team;
           solve_times := solve_times team;
           submissions := history |}
    end
  else
    let '(wrong_count, wrong) :=
      map_index 0 (wrong_submissions team) (problem_name sub) in
    {| name := name team;
       solved_problems := solved_problems team;
       penalty_time := penalty_time team;
       wrong_submissions := <[problem_name sub := wrong_count + 1]> wrong;
       first_ac_time := first_ac_time team;
       solve_times := solve_times team;
       submissions := history |}.

(** ** [ICPCSystem::compare_teams] *)

(** The [for] loop over the common indices of the two vectors: [Some r]
    when the loop returns [r], [None] when it runs to its end. *)
Fixpoint compare_solve_times (ta tb : list Z) : option bool :=
  match ta, tb with
  | x :: ta', y :: tb' =>
      if negb (x =? y) then Some (x <? y) else compare_solve_times ta' tb'
  | _, _ => None
  end.

(** The [Team] that [teams[a]] refers to. *)
Definition teams_at (teams : gmap string Team) (a : string) : Team :=
  fst (map_index Team_default teams a).

(** The map after [teams[a]] has been evaluated. *)
Definition teams_touch (teams : gmap string Team) (a : string)
  : gmap string Team :=
  snd (map_index Team_default teams a).

Definition compare_teams (teams : gmap string Team) (a b : string) : bool :=
  let teamA := teams_at teams a in
  let teamB := teams_at teams b in
  if negb (solved_problems teamA =? solved_problems teamB) then
    solved_problems teamA >? solved_problems teamB
  else if negb (penalty_time teamA =? penalty_time teamB) then
    penalty_time teamA <? penalty_time teamB
  else
    match compare_solve_times (solve_times teamA) (solve_times teamB) with
    | Some r => r
    | None => String.ltb a b
    end.

(** ** [ICPCSystem::update_scoreboard]

    The comparator evaluates [teams[a]] and [teams[b]]; when the vector
    has at least two elements every element is compared at least once,
    so each name of [team_order] has an entry afterwards. *)
Definition update_scoreboard (s : ICPCSystem) : ICPCSystem :=
  {| duration_time := duration_time s;
     is_frozen := is_frozen s;
     teams := if (2 <=? length (team_order s))%nat
              then foldl teams_touch (teams s) (team_order s)
              else teams s;
     team_order := std_sort (compare_teams (teams s)) (team_order s);
     all_submissions := all_submissions s |}.

(** ** The public operations *)

Definition start (s : ICPCSystem) (duration : Z) : ICPCSystem * list output :=
  ({| duration_time := Some duration;
      is_frozen := is_frozen s;
      teams := teams s;
      team_order := team_order s;
      all_submissions := all_submissions s |},
   [Text "[Info]Competition starts.\n"]).

Definition add_team (s : ICPCSystem) (team_name : string)
  : ICPCSystem * list output :=
  match teams s !! team_name with
  | Some _ => (s, [Text "[Error]Add failed: duplicated team name.\n"])
  | None =>
      ({| duration_time := duration_time s;
          is_frozen := is_frozen s;
          teams := <[team_name :=
                      {| name := team_name;
                         solved_problems := 0;
                         penalty_time := 0;
                         wrong_submissions := ∅;
                         first_ac_time := ∅;
                         solve_times := [];
                         submissions := [] |}]> (teams s);
          team_order := team_order s ++ [team_name];
          all_submissions := all_submissions s |},
       [Text "[Info]Add successfully.\n"])
  end.

Definition submit (s : ICPCSystem)
    (team_name problem_name status : string) (time : Z)
  : ICPCSystem * list output :=
  match teams s !! team_name with
  | None => (s, [Text "[Error]Submit failed: cannot find the team.\n"])
  | Some team =>
      let sub := Build_Submission team_name problem_name status time in
      ({| duration_time := duration_time s;
          is_frozen := is_frozen s;
          teams := <[team_name := update_team_stats team sub]> (teams s);
          team_order := team_order s;
          all_submissions := all_submissions s ++ [sub] |},
       [Text "[Info]Submit successfully.\n"])
  end.

Definition flush_scoreboard (s : ICPCSystem) : ICPCSystem * list output :=
  (update_scoreboard s, [Text "[Info]Flush scoreboard.\n"]).

Definition freeze (s : ICPCSystem) : ICPCSystem * list output :=
  if is_frozen s then
    (s, [Text "[Error]Freeze failed: scoreboard has been frozen.\n"])
  else
    ({| duration_time := duration_time s;
        is_frozen := true;
        teams := teams s;
        team_order := team_order s;
        all_submissions := all_submissions s |},
     [Text "[Info]Freeze scoreboard.\n"]).

(** The printing loop of [scroll]: index [i] runs over [team_order], and
    each row reads [teams[team_order[i]]]. *)
Fixpoint print_scoreboard (teams : gmap string Team) (order : list string)
    (i : nat) : gmap string Team * list output :=
  match order with
  | [] => (teams, [])
  | n :: rest =>
      let '(team, teams1) := map_index Team_default teams n in
      let '(teams2, rows) := print_scoreboard teams1 rest (S i) in
      (teams2,
       ScoreLine (name team) (Z.of_nat i + 1)
                 (solved_problems team) (penalty_time team) :: rows)
  end.

Definition scroll (s : ICPCSystem) : ICPCSystem * list output :=
  if negb (is_frozen s) then
    (s, [Text "[Error]Scroll failed: scoreboard has not been frozen.\n"])
  else
    let s1 := update_scoreboard
                {| duration_time := duration_time s;
                   is_frozen := false;
                   teams := teams s;
                   team_order := team_order s;
                   all_submissions := all_submissions s |} in
    let '(teams2, rows) := print_scoreboard (teams s1) (team_order s1) 0 in
    ({| duration_time := duration_time s1;
        is_frozen := is_frozen s1;
        teams := teams2;
        team_order := team_order s1;
        all_submissions := all_submissions s1 |},
     Text "[Info]Scroll scoreboard.\n" :: rows).

(** The range-for loop of [query_ranking]. *)
Fixpoint find_ranking (order : list string) (team_name : string) (ranking : Z)
  : list output :=
  match order with
  | [] => []
  | team :: rest =>
      if String.eqb team team_name then [RankingLine team_name ranking]
      else find_ranking rest team_name (ranking + 1)
  end.

Definition query_ranking (s : ICPCSystem) (team_name : string)
  : ICPCSystem * list output :=
  match teams s !! team_name with
  | None => (s, [Text "[Error]Query ranking failed: cannot find the team.\n"])
  | Some _ =>
      (s,
       (if is_frozen s then
          [Text "[Warning]Scoreboard is frozen. The ranking may be inaccurate until it were scrolled.\n"]
        else [])
       ++ find_ranking (team_order s) team_name 1)
  end.

Definition submission_matches (problem_name' status' : string)
    (sub : Submission) : bool :=
  let problem_match :=
    String.eqb problem_name' "ALL" || String.eqb (problem_name sub) problem_name' in
  let status_match :=
    String.eqb status' "ALL" || String.eqb (status sub) status' in
  problem_match && status_match.

(** The loop of [query_submission] over the reverse iterators; the
    argument is the history seen from [rbegin()]. *)
Fixpoint find_submission (problem_name status : string)
    (reversed : list Submission) : option Submission :=
  match reversed with
  | [] => None
  | sub :: rest =>
      if submission_matches problem_name status sub then Some sub
      else find_submission problem_name status rest
  end.

Definition query_submission (s : ICPCSystem)
    (team_name problem_name status : string) : ICPCSystem * list output :=
  match teams s !! team_name with
  | None =>
      (s, [Text "[Error]Query submission failed: cannot find the team.\n"])
  | Some team =>
      (s,
       Text "[Info]Complete query submission.\n" ::
       match find_submission problem_name status (rev (submissions team)) with
       | Some sub => [SubmissionLine sub]
       | None => [Text "Cannot find any submission.\n"]
       end)
  end.

Definition end_ (s : ICPCSystem) : ICPCSystem * list output :=
  (s, [Text "[Info]Competition ends.\n"]).

(** ** The command loop of [main]

    A [command] is a line after it has been split into its typed
    arguments; how [main] reads and splits the lines is embedded further
    below ([getlines], [parse_line], [main_loop]). *)
Inductive command :=
| START (duration : Z)
| ADD_TEAM (team_name : string)
| SUBMIT (team_name problem_name status : string) (time : Z)
| FLUSH
| FREEZE
| SCROLL
| QUERY_RANKING (team_name : string)
| QUERY_SUBMISSION (team_name problem_name status : string)
| END.

Definition dispatch (s : ICPCSystem) (c : command) : ICPCSystem * list output :=
  match c with
  | START d => start s d
  | ADD_TEAM n => add_team s n
  | SUBMIT n p st t => submit s n p st t
  | FLUSH => flush_scoreboard s
  | FREEZE => freeze s
  | SCROLL => scroll s
  | QUERY_RANKING n => query_ranking s n
  | QUERY_SUBMISSION n p st => query_submission s n p st
  | END => end_ s
  end.

(** The [while] loop: commands are applied in order and END leaves the
    loop. *)
Fixpoint run (s : ICPCSystem) (cmds : list command) : ICPCSystem * list output :=
  match cmds with
  | [] => (s, [])
  | c :: rest =>
      let '(s1, out1) := dispatch s c in
      match c with
      | END => (s1, out1)
      | _ => let '(s2, out2) := run s1 rest in (s2, out1 ++ out2)
      end
  end.

(** A state is reachable when the loop can be in it after some commands. *)
Inductive reachable : ICPCSystem → Prop :=
| reachable_init : reachable ICPCSystem_init
| reachable_step s c : reachable s → reachable (fst (dispatch s c)).

(** * Vocabulary of the statements *)

(** ** The descending solve-time vector *)

(** Every element is at least as large as all later ones. *)
Definition sorted_desc (l : list Z) : Prop :=
  StronglySorted (λ x y, y ≤ x) l.

(** ** The per-team statistics *)

(** The counter that [wrong_submissions[p]] reads: 0 when [p] has no
    entry. *)
Definition wrong_count (t : Team) (p : string) : Z :=
  default 0 (wrong_submissions t !! p).

(** [sub] is an accepted, respectively a rejected, submission for
    problem [p]. *)
Definition accepted_for (p : string) (sub : Submission) : Prop :=
  problem_name sub = p ∧ status sub = "Accepted".

Definition rejected_for (p : string) (sub : Submission) : Prop :=
  problem_name sub = p ∧ status sub ≠ "Accepted".

#[local] Instance accepted_for_dec p sub : Decision (accepted_for p sub).
Proof. unfold accepted_for. apply _. Defined.

#[local] Instance rejected_for_dec p sub : Decision (rejected_for p sub).
Proof. unfold rejected_for. apply _. Defined.

(** What the fields of a [Team] have to do with each other and with the
    history of its submissions. *)
Record team_inv (t : Team) : Prop := {
  inv_solved_times : solved_problems t = Z.of_nat (length (solve_times t));
  inv_solved_first : solved_problems t = Z.of_nat (size (first_ac_time t));
  inv_sorted : sorted_desc (solve_times t);
  inv_first_history :
    ∀ p, is_Some (first_ac_time t !! p) ↔ Exists (accepted_for p) (submissions t);
  inv_wrong_history :
    ∀ p, wrong_count t p =
         Z.of_nat (length (filter (rejected_for p) (submissions t)));
  inv_penalty_range : INT_MIN ≤ penalty_time t ≤ INT_MAX
}.

(** ** The state of the whole system *)

(** Every entry of [teams] carries its key as its name and consistent
    statistics, and [team_order] lists the keys of [teams], each once.  A
    name of [team_order] that is not a key would be given a
    value-initialised entry by the comparator; [inv_order_registered]
    says there is none. *)
Record system_inv (s : ICPCSystem) : Prop := {
  inv_team_name : ∀ k t, teams s !! k = Some t → name t = k;
  inv_team : ∀ k t, teams s !! k = Some t → team_inv t;
  inv_order_nodup : NoDup (team_order s);
  inv_order_registered : ∀ k, k ∈ team_order s ↔ is_Some (teams s !! k)
}.

(** The state with the flag cleared, as [scroll] has it before sorting. *)
Definition unfrozen (s : ICPCSystem) : ICPCSystem :=
  {| duration_time := duration_time s;
     is_frozen := false;
     teams := teams s;
     team_order := team_order s;
     all_submissions := all_submissions s |}.

(** The row that [scroll] prints for the name at index [j]. *)
Definition score_row (m : gmap string Team) (j : nat) (n : string) : output :=
  ScoreLine (name (teams_at m n)) (Z.of_nat j + 1)
            (solved_problems (teams_at m n)) (penalty_time (teams_at m n)).

(** ** The comparator *)

(** Position [i] is the first one at which the two vectors differ, with
    values [x] and [y]. *)
Definition first_difference (ta tb : list Z) (i : nat) (x y : Z) : Prop :=
  ta !! i = Some x ∧ tb !! i = Some y ∧ x ≠ y ∧
  ∀ j, (j < i)%nat → ta !! j = tb !! j.

(** The order of section 4.3 of the specification, in its words: more
    problems solved; then less penalty; then the smaller solve time at
    the first position where the vectors differ; then the smaller
    name. *)
Definition ranks_before (m : gmap string Team) (a b : string) : Prop :=
  let teamA := teams_at m a in
  let teamB := teams_at m b in
  solved_problems teamA > solved_problems teamB ∨
  (solved_problems teamA = solved_problems teamB ∧
   (penalty_time teamA < penalty_time teamB ∨
    (penalty_time teamA = penalty_time teamB ∧
     ((∃ i x y,
         first_difference (solve_times teamA) (solve_times teamB) i x y ∧ x < y) ∨
      ((∀ i x y,
          ¬ first_difference (solve_times teamA) (solve_times teamB) i x y) ∧
       String.ltb a b = true))))).

(** The step [c] cannot lower the penalty of team [k], whose record is
    [t]: if it is a first acceptance for [k], the penalty it adds is not
    negative and the new total is not beyond the largest [int]. *)
Definition penalty_step_fits (k : string) (t : Team) (c : command) : Prop :=
  match c with
  | SUBMIT n p st tm =>
      n = k → st = "Accepted" → first_ac_time t !! p = None →
      0 ≤ 20 * wrong_count t p + tm ∧
      penalty_time t + (20 * wrong_count t p + tm) ≤ INT_MAX
  | _ => True
  end.

(** The specification's sentence on the penalty of a first acceptance,
    taken literally: the penalty grows by exactly [20 * wrong + time]. *)
Definition first_accept_adds_exactly : Prop :=
  ∀ s n p tm t t',
    reachable s → teams s !! n = Some t →
    ¬ Exists (accepted_for p) (submissions t) →
    teams (fst (submit s n p "Accepted" tm)) !! n = Some t' →
    penalty_time t' = penalty_time t + (20 * wrong_count t p + tm).

(** The specification's sentence on the penalty over time, taken
    literally: no operation lowers the penalty of a team. *)
Definition penalty_never_decreases : Prop :=
  ∀ s c k t t',
    reachable s → teams s !! k = Some t →
    teams (fst (dispatch s c)) !! k = Some t' →
    penalty_time t ≤ penalty_time t'.

(** ** Example states

    Team A has one rejected attempt at problem [p]; team B has solved
    [p] at time 10 and [q] at time 40. *)
Definition example_commands : list command :=
  [START 300; ADD_TEAM "A"; ADD_TEAM "B";
   SUBMIT "A" "p" "Wrong_Answer" 5;
   SUBMIT "B" "p" "Accepted" 10;
   SUBMIT "B" "q" "Accepted" 40].

Definition example_state : ICPCSystem :=
  fst (run ICPCSystem_init example_commands).

Definition example_frozen : ICPCSystem :=
  fst (run ICPCSystem_init (example_commands ++ [FREEZE])).

(** ** The visible order *)

(** Command [c] never changes [team_order]: what the specification says
    of SUBMIT, FREEZE, ADD_TEAM and the two queries. *)
Definition order_untouched_by (c : command) : Prop :=
  ∀ s, reachable s → team_order (fst (dispatch s c)) = team_order s.

(** The state with the freeze flag set to [b]. *)
Definition with_frozen (s : ICPCSystem) (b : bool) : ICPCSystem :=
  {| duration_time := duration_time s;
     is_frozen := b;
     teams := teams s;
     team_order := team_order s;
     all_submissions := all_submissions s |}.

(** What [query_ranking] writes before the rank. *)
Definition frozen_warning (s : ICPCSystem) : list output :=
  if is_frozen s then
    [Text "[Warning]Scoreboard is frozen. The ranking may be inaccurate until it were scrolled.\n"]
  else [].

(** The team that a standings row is about. *)
Definition row_team (o : output) : option string :=
  match o with
  | ScoreLine n _ _ _ => Some n
  | _ => None
  end.

(** ** The statistics read off the history *)

(** The first acceptances in a history, given newest first: each
    accepted submission with no accepted submission for its problem
    before it, paired with the number of rejected submissions for that
    problem before it. *)
Fixpoint first_accepts (reversed : list Submission) : list (Submission * Z) :=
  match reversed with
  | [] => []
  | sub :: older =>
      (if decide (status sub = "Accepted" ∧
                  ¬ Exists (accepted_for (problem_name sub)) older)
       then [(sub,
              Z.of_nat (length (filter (rejected_for (problem_name sub)) older)))]
       else [])
      ++ first_accepts older
  end.

(** The penalty that one first acceptance is charged. *)
Definition charge (fa : Submission * Z) : Z := 20 * snd fa + time (fst fa).

Definition sum_Z (l : list Z) : Z := foldr Z.add 0 l.

(** What the history of a team determines. *)
Record history_inv (t : Team) : Prop := {
  hist_solved :
    solved_problems t =
      Z.of_nat (length (first_accepts (rev (submissions t))));
  hist_penalty :
    penalty_time t =
      wrap_int (sum_Z (charge <$> first_accepts (rev (submissions t))));
  hist_solve_times :
    Permutation (solve_times t)
      ((λ fa, time (fst fa)) <$> first_accepts (rev (submissions t)));
  hist_first_ac :
    ∀ p v, first_ac_time t !! p = Some v ↔
           ∃ fa, fa ∈ first_accepts (rev (submissions t)) ∧
                 problem_name (fst fa) = p ∧ time (fst fa) = v
}.

(** The submissions of the global log that carry the name [k]. *)
Definition log_of (k : string) (log : list Submission) : list Submission :=
  filter (λ sub, team_name sub = k) log.

(** The team record that [add_team] creates. *)
Definition Team_new (n : string) : Team :=
  {| name := n;
     solved_problems := 0;
     penalty_time := 0;
     wrong_submissions := ∅;
     first_ac_time := ∅;
     solve_times := [];
     submissions := [] |}.

(** ** Reading the input: [main]

    [main] reads lines with [std::getline], splits each line with the
    extraction operator of [std::istringstream], and calls the member
    function that the first word names.  The stream operations are
    embedded with the behaviour the C++ standard gives them in the
    classic locale:
    - [iss >> str] skips white space (space, and the characters 9 to
      13), then reads up to the next white-space character or the end;
      at the end of the buffer, or on a stream that has failed, it sets
      the fail bit and leaves [str] as it was;
    - [iss >> n] for an [int] skips white space, reads an optional sign
      and the decimal digits that follow; without a digit it stores 0 and
      sets the fail bit, a value outside [int] is stored as the nearest
      bound; on a stream that has failed or is at its end it stores
      nothing, so a variable that was not initialised stays
      indeterminate ([None]): the call that follows passes on whatever
      that variable holds. *)

Definition is_space (c : ascii) : bool :=
  let n := N_of_ascii c in
  ((n =? 32) || ((9 <=? n) && (n <=? 13)))%N.

Fixpoint skip_space (s : string) : string :=
  match s with
  | EmptyString => EmptyString
  | String c s' => if is_space c then skip_space s' else s
  end.

(** The characters up to the next white space, and what follows. *)
Fixpoint read_word (s : string) : string * string :=
  match s with
  | EmptyString => (EmptyString, EmptyString)
  | String c s' =>
      if is_space c then (EmptyString, s)
      else let '(w, r) := read_word s' in (String c w, r)
  end.

(** A string stream: the characters not yet read, and the fail bit. *)
Record istream := Build_istream {
  buffer : string;
  failbit : bool
}.

Definition extract_string (iss : istream) (var : string) : istream * string :=
  if failbit iss then (iss, var)
  else
    match skip_space (buffer iss) with
    | EmptyString => ({| buffer := EmptyString; failbit := true |}, var)
    | rest =>
        let '(w, r) := read_word rest in
        ({| buffer := r; failbit := false |}, w)
    end.

Definition clamp_int (z : Z) : Z := Z.max INT_MIN (Z.min INT_MAX z).

Definition digit_of (c : ascii) : option Z :=
  let n := Z.of_N (N_of_ascii c) in
  if (48 <=? n) && (n <=? 57) then Some (n - 48) else None.

(** The value of the decimal digits at the front of [s], continuing from
    [acc], and what follows them. *)
Fixpoint read_digits (s : string) (acc : Z) : Z * string :=
  match s with
  | EmptyString => (acc, EmptyString)
  | String c s' =>
      match digit_of c with
      | Some d => read_digits s' (10 * acc + d)
      | None => (acc, s)
      end
  end.

Definition extract_int (iss : istream) (var : option Z) : istream * option Z :=
  if failbit iss then (iss, var)
  else
    match skip_space (buffer iss) with
    | EmptyString => ({| buffer := EmptyString; failbit := true |}, var)
    | String c rest =>
        let '(negative, body) :=
          if Ascii.eqb c "-" then (true, rest)
          else if Ascii.eqb c "+" then (false, rest)
          else (false, String c rest) in
        match body with
        | EmptyString => ({| buffer := EmptyString; failbit := true |}, Some 0)
        | String d _ =>
            match digit_of d with
            | None => ({| buffer := body; failbit := true |}, Some 0)
            | Some _ =>
                let '(v, r) := read_digits body 0 in
                let value := if negative then - v else v in
                ({| buffer := r;
                    failbit := negb (Z.eqb (clamp_int value) value) |},
                 Some (clamp_int value))
            end
        end
    end.

(** [s.find(c)]: the first position of [c], [None] for [npos]. *)
Fixpoint find_char (c : ascii) (s : string) : option nat :=
  match s with
  | EmptyString => None
  | String x s' =>
      if Ascii.eqb x c then Some 0%nat else S <$> find_char c s'
  end.

Fixpoint drop_chars (n : nat) (s : string) : string :=
  match n, s with
  | O, _ => s
  | S n', String _ s' => drop_chars n' s'
  | S _, EmptyString => EmptyString
  end.

(** [s.substr(pos)]: throws ([None]) when [pos] is beyond the size. *)
Definition substr (s : string) (pos : nat) : option string :=
  if (pos <=? String.length s)%nat then Some (drop_chars pos s) else None.

(** [cond.substr(cond.find("=") + 1)]; [npos + 1] is 0 in [size_t]. *)
Definition after_equals (cond : string) : option string :=
  substr cond (match find_char "=" cond with
               | Some i => S i
               | None => 0%nat
               end).

(** What the body of the loop does with one line: nothing, a call, a
    call whose [int] argument was never written (the call as a function
    of what the variable holds), or an exception out of [substr]. *)
Inductive parsed :=
| Skip
| Call (c : command)
| Uninitialised (call : Z → command)
| Throws.

Definition parse_line (line : string) : parsed :=
  if String.eqb line "" then Skip
  else
    let iss := {| buffer := line; failbit := false |} in
    let '(iss, command) := extract_string iss "" in
    if String.eqb command "START" then
      let '(iss, dummy) := extract_string iss "" in
      let '(iss, duration) := extract_int iss None in
      match duration with
      | Some d => Call (START d)
      | None => Uninitialised START
      end
    else if String.eqb command "ADD_TEAM" then
      let '(iss, team_name) := extract_string iss "" in
      Call (ADD_TEAM team_name)
    else if String.eqb command "SUBMIT" then
      let '(iss, team_name) := extract_string iss "" in
      let '(iss, problem_name) := extract_string iss "" in
      let '(iss, status) := extract_string iss "" in
      let '(iss, dummy) := extract_string iss "" in
      let '(iss, time) := extract_int iss None in
      match time with
      | Some t => Call (SUBMIT team_name problem_name status t)
      | None => Uninitialised (SUBMIT team_name problem_name status)
      end
    else if String.eqb command "FLUSH" then Call FLUSH
    else if String.eqb command "FREEZE" then Call FREEZE
    else if String.eqb command "SCROLL" then Call SCROLL
    else if String.eqb command "QUERY_RANKING" then
      let '(iss, team_name) := extract_string iss "" in
      Call (QUERY_RANKING team_name)
    else if String.eqb command "QUERY_SUBMISSION" then
      let '(iss, team_name) := extract_string iss "" in
      let '(iss, dummy1) := extract_string iss "" in
      let '(iss, problem_cond) := extract_string iss "" in
      let '(iss, dummy2) := extract_string iss "" in
      let '(iss, status_cond) := extract_string iss "" in
      match after_equals problem_cond, after_equals status_cond with
      | Some problem_name, Some status =>
          Call (QUERY_SUBMISSION team_name problem_name status)
      | _, _ => Throws
      end
    else if String.eqb command "END" then Call END
    else Skip.

(** The loop over the lines.  A call whose [int] argument was never
    written is made with the value the variable happens to hold, some
    [int]; [indeterminate] supplies these values, one for each such call
    in turn, and whatever it supplies is taken as an [int].  The result
    is [None] only if a line throws. *)
Fixpoint main_loop (indeterminate : nat → Z) (system : ICPCSystem)
    (lines : list string) : option (ICPCSystem * list output) :=
  match lines with
  | [] => Some (system, [])
  | line :: rest =>
      match parse_line line with
      | Skip => main_loop indeterminate system rest
      | Call END => Some (end_ system)
      | Call c =>
          let '(s1, out1) := dispatch system c in
          match main_loop indeterminate s1 rest with
          | Some (s2, out2) => Some (s2, out1 ++ out2)
          | None => None
          end
      | Uninitialised call =>
          let '(s1, out1) :=
            dispatch system (call (wrap_int (indeterminate 0%nat))) in
          match main_loop (λ i, indeterminate (S i)) s1 rest with
          | Some (s2, out2) => Some (s2, out1 ++ out2)
          | None => None
          end
      | Throws => None
      end
  end.

(** The calls that the lines stand for, in the order of the lines. *)
Fixpoint calls (indeterminate : nat → Z) (lines : list string) : list command :=
  match lines with
  | [] => []
  | line :: rest =>
      match parse_line line with
      | Call c => c :: calls indeterminate rest
      | Uninitialised call =>
          call (wrap_int (indeterminate 0%nat))
            :: calls (λ i, indeterminate (S i)) rest
      | Skip | Throws => calls indeterminate rest
      end
  end.

(** The lines that successive calls of [getline] return for the text
    [input]: the pieces between newline characters, without a last empty
    piece. *)
Fixpoint getlines (input : string) : list string :=
  match input with
  | EmptyString => []
  | String c rest =>
      if Ascii.eqb c "010" then EmptyString :: getlines rest
      else
        match getlines rest with
        | [] => [String c EmptyString]
        | line :: more => String c line :: more
        end
  end.

(** The program: the final state and the text written to [cout]. *)
Definition main (indeterminate : nat → Z) (input : string)
  : option (ICPCSystem * string) :=
  match main_loop indeterminate ICPCSystem_init (getlines input) with
  | Some (s, out) => Some (s, String.concat "" (render <$> out))
  | None => None
  end.

(** Vocabulary for lines: a word has a character and no white space; a
    gap is white space only; [starts_blank] holds of what may follow a
    word. *)
Fixpoint no_space (w : string) : Prop :=
  match w with
  | EmptyString => True
  | String c w' => is_space c = false ∧ no_space w'
  end.

Definition word (w : string) : Prop := w ≠ EmptyString ∧ no_space w.

Fixpoint all_space (g : string) : Prop :=
  match g with
  | EmptyString => True
  | String c g' => is_space c = true ∧ all_space g'
  end.

Definition gap (g : string) : Prop := g ≠ EmptyString ∧ all_space g.

Definition starts_blank (r : string) : Prop :=
  match r with
  | EmptyString => True
  | String c _ => is_space c = true
  end.

(** The words on which [main] branches. *)
Definition command_words : list string :=
  ["START"; "ADD_TEAM"; "SUBMIT"; "FLUSH"; "FREEZE"; "SCROLL";
   "QUERY_RANKING"; "QUERY_SUBMISSION"; "END"].

(** The value that [read_digits] computes for the digits of a decimal
    numeral. *)
Fixpoint uint_value (d : Decimal.uint) (acc : Z) : Z :=
  match d with
  | Decimal.Nil => acc
  | Decimal.D0 d => uint_value d (10 * acc + 0)
  | Decimal.D1 d => uint_value d (10 * acc + 1)
  | Decimal.D2 d => uint_value d (10 * acc + 2)
  | Decimal.D3 d => uint_value d (10 * acc + 3)
  | Decimal.D4 d => uint_value d (10 * acc + 4)
  | Decimal.D5 d => uint_value d (10 * acc + 5)
  | Decimal.D6 d => uint_value d (10 * acc + 6)
  | Decimal.D7 d => uint_value d (10 * acc + 7)
  | Decimal.D8 d => uint_value d (10 * acc + 8)
  | Decimal.D9 d => uint_value d (10 * acc + 9)
  end.

(** The text whose lines are [lines], each ended by a newline. *)
Fixpoint unlines (lines : list string) : string :=
  match lines with
  | [] => EmptyString
  | line :: rest => line +:+ String "010" (unlines rest)
  end.


(** A word that [iss >> n] reads a number from: a digit, after at most
    one sign. *)
Definition is_digit (c : ascii) : bool :=
  match digit_of c with
  | Some _ => true
  | None => false
  end.

Definition starts_number (w : string) : bool :=
  match w with
  | EmptyString => false
  | String c w' =>
      if Ascii.eqb c "-" || Ascii.eqb c "+" then
        match w' with
        | EmptyString => false
        | String d _ => is_digit d
        end
      else is_digit c
  end.

(** The [int] arguments that a call carries. *)
Definition call_ints_in_range (c : command) : Prop :=
  match c with
  | START d => INT_MIN ≤ d ≤ INT_MAX
  | SUBMIT _ _ _ tm => INT_MIN ≤ tm ≤ INT_MAX
  | _ => True
  end.

(** * Properties *)

(** ** The order on [std::string] *)

Lemma string_compare_refl (a : string) : String.compare a a = Eq.
Proof.
  induction a as [|c a IH]; simpl; [reflexivity|].
  unfold Ascii.compare. rewrite N.compare_refl. exact IH.
Qed.

Lemma string_compare_lt_trans (a b c : string) :
  String.compare a b = Lt → String.compare b c = Lt → String.compare a c = Lt.
Proof.
  revert b c.
  induction a as [|x a IH]; intros [|y b] [|z c]; simpl; try congruence.
  destruct (Ascii.compare x y) eqn:Hxy; try congruence;
    destruct (Ascii.compare y z) eqn:Hyz; try congruence.
  - apply Ascii.compare_eq_iff in Hxy, Hyz. subst.
    unfold Ascii.compare. rewrite N.compare_refl. apply IH.
  - apply Ascii.compare_eq_iff in Hxy. subst. rewrite Hyz. reflexivity.
  - apply Ascii.compare_eq_iff in Hyz. subst. rewrite Hxy. reflexivity.
  - unfold Ascii.compare in *.
    rewrite N.compare_lt_iff in Hxy, Hyz.
    assert (Hxz : (N_of_ascii x < N_of_ascii z)%N) by lia.
    rewrite <- N.compare_lt_iff in Hxz. rewrite Hxz. reflexivity.
Qed.

Lemma string_ltb_irrefl (a : string) : String.ltb a a = false.
Proof. unfold String.ltb. rewrite string_compare_refl. reflexivity. Qed.

Lemma string_ltb_trans (a b c : string) :
  String.ltb a b = true → String.ltb b c = true → String.ltb a c = true.
Proof.
  unfold String.ltb. intros Hab Hbc.
  destruct (String.compare a b) eqn:Eab; try discriminate.
  destruct (String.compare b c) eqn:Ebc; try discriminate.
  rewrite (string_compare_lt_trans _ _ _ Eab Ebc). reflexivity.
Qed.

Lemma string_ltb_asym (a b : string) :
  String.ltb a b = true → String.ltb b a = false.
Proof.
  intros Hab. destruct (String.ltb b a) eqn:Hba; [|reflexivity].
  pose proof (string_ltb_trans _ _ _ Hab Hba) as H.
  rewrite string_ltb_irrefl in H. discriminate.
Qed.

Lemma string_ltb_total (a b : string) :
  a ≠ b → String.ltb a b = true ∨ String.ltb b a = true.
Proof.
  intros Hne. unfold String.ltb. rewrite (String.compare_antisym b a).
  destruct (String.compare a b) eqn:E; simpl; auto.
  apply String.compare_eq_iff in E. contradiction.
Qed.

(** ** [std::sort] *)

Section StdSortFacts.
Context {A : Type} (comp : A → A → bool).

Lemma sort_insert_perm (x : A) (l : list A) :
  Permutation (sort_insert comp x l) (x :: l).
Proof.
  induction l as [|y l IH]; simpl; [reflexivity|].
  destruct (comp x y); [reflexivity|].
  rewrite IH. apply perm_swap.
Qed.

Lemma std_sort_perm (l : list A) : Permutation (std_sort comp l) l.
Proof.
  induction l as [|x l IH]; simpl; [reflexivity|].
  rewrite sort_insert_perm. constructor. exact IH.
Qed.

Lemma std_sort_length (l : list A) : length (std_sort comp l) = length l.
Proof. apply Permutation_length, std_sort_perm. Qed.

(** The comparator is only required to behave on the values that are
    sorted, which [P] collects. *)
Context (P : A → Prop).
Hypothesis comp_asym : ∀ x y, P x → P y → comp x y = true → comp y x = false.
Hypothesis comp_trans :
  ∀ x y z, P x → P y → P z →
    comp x y = true → comp y z = true → comp x z = true.

Lemma sort_insert_Forall (Q : A → Prop) (x : A) (l : list A) :
  Q x → Forall Q l → Forall Q (sort_insert comp x l).
Proof.
  intros Hx Hl. eapply Permutation_Forall.
  - symmetry. apply sort_insert_perm.
  - constructor; assumption.
Qed.

Lemma sort_insert_sorted (x : A) (l : list A) :
  P x → Forall P l →
  StronglySorted (not_after comp) l → StronglySorted (not_after comp) (sort_insert comp x l).
Proof.
  intros Px. induction l as [|y l IH]; intros HP Hs; simpl.
  - repeat constructor.
  - inversion HP as [|? ? Py HPl]; subst.
    inversion Hs as [|? ? Hsl Hy]; subst.
    destruct (comp x y) eqn:Hxy.
    + constructor; [assumption|].
      constructor; [apply comp_asym; assumption|].
      rewrite Forall_forall in Hy, HPl. apply Forall_forall.
      intros z Hz. unfold not_after.
      destruct (comp z x) eqn:Hzx; [|reflexivity].
      rewrite <- (Hy z Hz). symmetry.
      apply (comp_trans z x y); auto.
    + constructor; [apply IH; assumption|].
      apply sort_insert_Forall; assumption.
Qed.

Lemma std_sort_sorted (l : list A) :
  Forall P l → StronglySorted (not_after comp) (std_sort comp l).
Proof.
  induction l as [|x l IH]; intros HP; simpl; [constructor|].
  inversion HP; subst.
  apply sort_insert_sorted; auto.
  eapply Permutation_Forall; [symmetry; apply std_sort_perm|assumption].
Qed.

Hypothesis comp_total :
  ∀ x y, P x → P y → x ≠ y → comp x y = true ∨ comp y x = true.

(** With a total comparator and no repetition, each element is
    strictly before all later ones. *)
Lemma std_sort_strictly_sorted (l : list A) :
  Forall P l → NoDup l →
  StronglySorted (λ x y, comp x y = true) (std_sort comp l).
Proof.
  intros HP Hnd.
  assert (HP' : Forall P (std_sort comp l))
    by (eapply Permutation_Forall; [symmetry; apply std_sort_perm|exact HP]).
  assert (Hnd' : NoDup (std_sort comp l)) by (rewrite std_sort_perm; exact Hnd).
  pose proof (std_sort_sorted l HP) as Hs.
  induction Hs as [|x l' Hs IH Hx]; [constructor|].
  inversion HP' as [|? ? Px HPl]; subst.
  apply NoDup_cons in Hnd' as [Hnotin Hnd'].
  constructor; [apply IH; assumption|].
  rewrite Forall_forall in Hx, HPl. apply Forall_forall.
  intros y Hy.
  destruct (comp_total x y) as [H|H]; auto.
  - intros ->. contradiction.
  - apply Hx in Hy. unfold not_after in Hy. congruence.
Qed.

(** Two strictly ordered arrangements of the same values coincide:
    whatever algorithm [std::sort] runs, its result is [std_sort]. *)
Lemma strictly_sorted_unique (l1 l2 : list A) :
  Forall P l1 →
  StronglySorted (λ x y, comp x y = true) l1 →
  StronglySorted (λ x y, comp x y = true) l2 →
  Permutation l1 l2 → l1 = l2.
Proof.
  intros HP Hs1. revert l2.
  induction Hs1 as [|a l1 Hs1 IH Ha]; intros l2 Hs2 Hperm.
  - apply Permutation_nil in Hperm. congruence.
  - destruct Hs2 as [|b l2 Hs2 Hb].
    { symmetry in Hperm. apply Permutation_nil in Hperm. discriminate. }
    inversion HP as [|? ? Pa HPl]; subst.
    assert (Hab : a = b).
    { assert (Hin_a : a ∈ b :: l2) by (rewrite <- Hperm; left).
      assert (Hin_b : b ∈ a :: l1) by (rewrite Hperm; left).
      apply elem_of_cons in Hin_a as [->|Hin_a]; [reflexivity|].
      apply elem_of_cons in Hin_b as [->|Hin_b]; [reflexivity|].
      rewrite Forall_forall in Ha, Hb, HPl.
      pose proof (Ha b Hin_b) as H1. pose proof (Hb a Hin_a) as H2.
      rewrite (comp_asym a b Pa (HPl b Hin_b) H1) in H2. discriminate. }
    subst b. f_equal. apply IH; auto.
    eapply Permutation_cons_inv. exact Hperm.
Qed.

Theorem std_sort_unique (l l' : list A) :
  Forall P l → NoDup l →
  Permutation l' l →
  StronglySorted (λ x y, comp x y = true) l' →
  l' = std_sort comp l.
Proof.
  intros HP Hnd Hperm Hs.
  apply strictly_sorted_unique; auto.
  - eapply Permutation_Forall; [symmetry; exact Hperm|exact HP].
  - apply std_sort_strictly_sorted; assumption.
  - rewrite Hperm. symmetry. apply std_sort_perm.
Qed.
End StdSortFacts.

Lemma StronglySorted_rev {A} (R : relation A) (l : list A) :
  StronglySorted R l → StronglySorted (flip R) (rev l).
Proof.
  induction 1 as [|x l Hs IH Hx]; simpl; [constructor|].
  apply StronglySorted_app_2; [|assumption|repeat constructor].
  intros y z Hy Hz. apply list_elem_of_singleton in Hz as ->.
  rewrite Forall_forall in Hx. apply Hx.
  apply list_elem_of_In. apply in_rev. apply list_elem_of_In. exact Hy.
Qed.

Lemma StronglySorted_weaken {A} (R R' : relation A) (l : list A) :
  (∀ x y, R x y → R' x y) → StronglySorted R l → StronglySorted R' l.
Proof.
  intros HR. induction 1 as [|x l Hs IH Hx]; constructor; [assumption|].
  eapply Forall_impl; [exact Hx|]. intros y. apply HR.
Qed.

Lemma sort_reversed_perm (v : list Z) : Permutation (sort_reversed v) v.
Proof.
  unfold sort_reversed.
  rewrite <- Permutation_rev, std_sort_perm, <- Permutation_rev. reflexivity.
Qed.

Lemma sort_reversed_sorted (v : list Z) : sorted_desc (sort_reversed v).
Proof.
  unfold sort_reversed, sorted_desc.
  assert (Hs : StronglySorted (not_after Z.ltb) (std_sort Z.ltb (rev v))).
  { apply (std_sort_sorted Z.ltb (λ _, True)).
    - intros x y _ _. rewrite Z.ltb_lt, Z.ltb_ge. lia.
    - intros x y z _ _ _. rewrite !Z.ltb_lt. lia.
    - apply Forall_forall. auto. }
  apply StronglySorted_rev in Hs.
  eapply StronglySorted_weaken; [|exact Hs].
  intros x y. unfold flip, not_after. rewrite Z.ltb_ge. auto.
Qed.

(** A vector that is already descending is left as it is. *)
Lemma sorted_desc_unique (l1 l2 : list Z) :
  sorted_desc l1 → sorted_desc l2 → Permutation l1 l2 → l1 = l2.
Proof.
  intros H1 H2 Hp.
  apply (StronglySorted_unique_strong (λ x y : Z, y ≤ x)); auto.
  intros x y _ _ ? ?. lia.
Qed.

(** ** [int] arithmetic *)

Lemma wrap_int_range (z : Z) : INT_MIN ≤ wrap_int z ≤ INT_MAX.
Proof.
  unfold wrap_int, INT_MIN, INT_MAX.
  pose proof (Z.mod_pos_bound (z - -2147483648) 4294967296). lia.
Qed.

Lemma wrap_int_id (z : Z) : INT_MIN ≤ z ≤ INT_MAX → wrap_int z = z.
Proof.
  unfold wrap_int, INT_MIN, INT_MAX. intros H.
  rewrite Z.mod_small by lia. lia.
Qed.

Lemma wrap_int_add_l (a b : Z) : wrap_int (wrap_int a + b) = wrap_int (a + b).
Proof.
  unfold wrap_int. f_equal.
  replace ((a - INT_MIN) mod 4294967296 + INT_MIN + b - INT_MIN)
    with ((a - INT_MIN) mod 4294967296 + b) by lia.
  rewrite Zplus_mod_idemp_l. f_equal. lia.
Qed.

Lemma wrap_int_add_r (a b : Z) : wrap_int (a + wrap_int b) = wrap_int (a + b).
Proof. rewrite (Z.add_comm a), wrap_int_add_l. f_equal. lia. Qed.

(** The two statements of the source, [problem_penalty = 20 * wrong_count
    + time] and [penalty_time += problem_penalty], as one reduction. *)
Lemma penalty_update (penalty wrong tm : Z) :
  int_add penalty (int_add (int_mul 20 wrong) tm) =
    wrap_int (penalty + (20 * wrong + tm)).
Proof.
  unfold int_add, int_mul. rewrite wrap_int_add_l, wrap_int_add_r. reflexivity.
Qed.

(** ** Facts about [operator[]] *)

Lemma map_index_fst {V} (d : V) (m : gmap string V) (k : string) :
  fst (map_index d m k) = default d (m !! k).
Proof. unfold map_index. destruct (m !! k); reflexivity. Qed.

Lemma map_index_snd_lookup {V} (d : V) (m : gmap string V) (k j : string) :
  snd (map_index d m k) !! j =
    if decide (k = j) then Some (default d (m !! k)) else m !! j.
Proof.
  unfold map_index. destruct (m !! k) eqn:E; simpl.
  - case_decide; subst; auto.
  - rewrite lookup_insert. reflexivity.
Qed.

Lemma map_index_snd_default {V} (d : V) (m : gmap string V) (k j : string) :
  default d (snd (map_index d m k) !! j) = default d (m !! j).
Proof. rewrite map_index_snd_lookup. case_decide; subst; reflexivity. Qed.

Lemma map_index_present {V} (d : V) (m : gmap string V) (k : string) :
  is_Some (m !! k) → snd (map_index d m k) = m.
Proof. intros [v Hv]. unfold map_index. rewrite Hv. reflexivity. Qed.

Lemma team_inv_wrong_nonneg (t : Team) (p : string) :
  team_inv t → 0 ≤ wrong_count t p.
Proof. intros H. rewrite (inv_wrong_history t H). lia. Qed.

Lemma team_inv_default : team_inv Team_default.
Proof.
  split; simpl; try reflexivity.
  - constructor.
  - intros p. rewrite lookup_empty, Exists_nil. split; [intros [? ?]; discriminate|tauto].
  - unfold INT_MIN, INT_MAX. lia.
Qed.

Lemma team_inv_new (n : string) :
  team_inv {| name := n; solved_problems := 0; penalty_time := 0;
              wrong_submissions := ∅; first_ac_time := ∅;
              solve_times := []; submissions := [] |}.
Proof.
  split; simpl; try reflexivity.
  - constructor.
  - intros p. rewrite lookup_empty, Exists_nil. split; [intros [? ?]; discriminate|tauto].
  - unfold INT_MIN, INT_MAX. lia.
Qed.

(** The three cases of [update_team_stats], as equations. *)
Lemma update_team_stats_first_ac (t : Team) (sub : Submission) :
  status sub = "Accepted" → first_ac_time t !! problem_name sub = None →
  update_team_stats t sub =
    {| name := name t;
       solved_problems := solved_problems t + 1;
       penalty_time :=
         wrap_int
           (penalty_time t + (20 * wrong_count t (problem_name sub) + time sub));
       wrong_submissions :=
         snd (map_index 0 (wrong_submissions t) (problem_name sub));
       first_ac_time := <[problem_name sub := time sub]> (first_ac_time t);
       solve_times := sort_reversed (solve_times t ++ [time sub]);
       submissions := submissions t ++ [sub] |}.
Proof.
  intros Hst Hfirst. unfold update_team_stats, wrong_count.
  rewrite Hst, Hfirst. simpl.
  rewrite <- map_index_fst, <- penalty_update.
  destruct (map_index 0 (wrong_submissions t) (problem_name sub)); reflexivity.
Qed.

Lemma update_team_stats_later_ac (t : Team) (sub : Submission) :
  status sub = "Accepted" → is_Some (first_ac_time t !! problem_name sub) →
  update_team_stats t sub =
    {| name := name t;
       solved_problems := solved_problems t;
       penalty_time := penalty_time t;
       wrong_submissions := wrong_submissions t;
       first_ac_time := first_ac_time t;
       solve_times := solve_times t;
       submissions := submissions t ++ [sub] |}.
Proof.
  intros Hst [v Hv]. unfold update_team_stats. rewrite Hst, Hv. reflexivity.
Qed.

Lemma update_team_stats_rejected (t : Team) (sub : Submission) :
  status sub ≠ "Accepted" →
  update_team_stats t sub =
    {| name := name t;
       solved_problems := solved_problems t;
       penalty_time := penalty_time t;
       wrong_submissions :=
         <[problem_name sub := wrong_count t (problem_name sub) + 1]>
           (wrong_submissions t);
       first_ac_time := first_ac_time t;
       solve_times := solve_times t;
       submissions := submissions t ++ [sub] |}.
Proof.
  intros Hst. unfold update_team_stats, wrong_count.
  apply String.eqb_neq in Hst. rewrite Hst.
  unfold map_index.
  destruct (wrong_submissions t !! problem_name sub) eqn:E; simpl; [reflexivity|].
  rewrite insert_insert_eq. reflexivity.
Qed.

Lemma update_team_stats_cases (t : Team) (sub : Submission) :
  (status sub = "Accepted" ∧ first_ac_time t !! problem_name sub = None) ∨
  (status sub = "Accepted" ∧ is_Some (first_ac_time t !! problem_name sub)) ∨
  status sub ≠ "Accepted".
Proof.
  destruct (decide (status sub = "Accepted")); [|auto].
  destruct (first_ac_time t !! problem_name sub) eqn:E; eauto.
Qed.

(** Split on the case [update_team_stats t sub] is in and rewrite it
    with the equation of that case. *)
Ltac update_team_stats_split t sub :=
  destruct (update_team_stats_cases t sub) as [[? ?]|[[? ?]|?]];
  [ rewrite update_team_stats_first_ac by assumption
  | rewrite update_team_stats_later_ac by assumption
  | rewrite update_team_stats_rejected by assumption ].

Lemma update_team_stats_name (t : Team) (sub : Submission) :
  name (update_team_stats t sub) = name t.
Proof. update_team_stats_split t sub; reflexivity. Qed.

Lemma update_team_stats_submissions (t : Team) (sub : Submission) :
  submissions (update_team_stats t sub) = submissions t ++ [sub].
Proof. update_team_stats_split t sub; reflexivity. Qed.

Lemma accepted_for_snoc (p : string) (l : list Submission) (sub : Submission) :
  Exists (accepted_for p) (l ++ [sub]) ↔
  Exists (accepted_for p) l ∨ accepted_for p sub.
Proof.
  rewrite Exists_app, Exists_cons, Exists_nil. tauto.
Qed.

Lemma rejected_for_snoc (p : string) (l : list Submission) (sub : Submission) :
  length (filter (rejected_for p) (l ++ [sub])) =
    (length (filter (rejected_for p) l)
     + if decide (rejected_for p sub) then 1 else 0)%nat.
Proof.
  rewrite filter_app, length_app. f_equal.
  rewrite filter_cons, filter_nil. case_decide; reflexivity.
Qed.

(** [update_team_stats] keeps the statistics of a team consistent. *)
Lemma update_team_stats_inv (t : Team) (sub : Submission) :
  team_inv t → team_inv (update_team_stats t sub).
Proof.
  intros [Hlen Hsize Hsorted Hfirst Hwrong Hrange].
  destruct (update_team_stats_cases t sub) as [[Hst Hnone]|[[Hst Hsome]|Hst]].
  - rewrite update_team_stats_first_ac by assumption.
    split; simpl.
    + rewrite (Permutation_length (sort_reversed_perm _)), length_app. simpl. lia.
    + rewrite map_size_insert_None by assumption. lia.
    + apply sort_reversed_sorted.
    + intros q. rewrite accepted_for_snoc, <- Hfirst, lookup_insert_is_Some.
      unfold accepted_for. split.
      * intros [H|[_ H]]; [right; split; congruence|left; assumption].
      * intros [H|[H _]]; [|left; congruence].
        destruct (decide (problem_name sub = q)); [left; assumption|right; auto].
    + intros q. unfold wrong_count in *. simpl.
      rewrite map_index_snd_default, rejected_for_snoc, Hwrong.
      case_decide as Hrej; [destruct Hrej as [_ Hrej]; contradiction|lia].
    + apply wrap_int_range.
  - rewrite update_team_stats_later_ac by assumption.
    split; simpl; try assumption.
    + intros q. rewrite accepted_for_snoc, <- Hfirst. split; [auto|].
      intros [H|[<- _]]; assumption.
    + intros q. unfold wrong_count in *.
      rewrite rejected_for_snoc, Hwrong.
      case_decide as Hrej; [destruct Hrej as [_ Hrej]; contradiction|lia].
  - rewrite update_team_stats_rejected by assumption.
    split; simpl; try assumption.
    + intros q. rewrite accepted_for_snoc, <- Hfirst. split; [auto|].
      intros [H|[_ H]]; [assumption|contradiction].
    + intros q. unfold wrong_count in *. simpl.
      rewrite rejected_for_snoc, lookup_insert.
      case_decide as Hq.
      * subst q. simpl. rewrite Hwrong.
        case_decide as Hrej; [lia|]. exfalso. apply Hrej. split; auto.
      * rewrite Hwrong.
        case_decide as Hrej; [destruct Hrej as [Hrej _]; contradiction|lia].
Qed.

Lemma teams_touch_present (m : gmap string Team) (k : string) :
  is_Some (m !! k) → teams_touch m k = m.
Proof. apply map_index_present. Qed.

Lemma teams_at_present (m : gmap string Team) (k : string) (t : Team) :
  m !! k = Some t → teams_at m k = t.
Proof. intros H. unfold teams_at. rewrite map_index_fst, H. reflexivity. Qed.

Lemma foldl_teams_touch_present (m : gmap string Team) (l : list string) :
  (∀ k, k ∈ l → is_Some (m !! k)) → foldl teams_touch m l = m.
Proof.
  induction l as [|k l IH]; intros H; simpl; [reflexivity|].
  rewrite teams_touch_present by (apply H; left).
  apply IH. intros j Hj. apply H. right. exact Hj.
Qed.

(** Outside the invariant too, the team a comparison reads is the same
    before and after entries were created for other names. *)
Lemma teams_at_inv (s : ICPCSystem) (k : string) :
  system_inv s → team_inv (teams_at (teams s) k).
Proof.
  intros Hs. unfold teams_at. rewrite map_index_fst.
  destruct (teams s !! k) eqn:E; simpl.
  - eapply inv_team; eauto.
  - apply team_inv_default.
Qed.

Lemma update_scoreboard_teams (s : ICPCSystem) :
  system_inv s → teams (update_scoreboard s) = teams s.
Proof.
  intros Hs. unfold update_scoreboard. cbn [teams].
  destruct (2 <=? length (team_order s))%nat; [|reflexivity].
  apply foldl_teams_touch_present. intros k. apply (inv_order_registered s Hs).
Qed.

Lemma update_scoreboard_order_perm (s : ICPCSystem) :
  Permutation (team_order (update_scoreboard s)) (team_order s).
Proof. apply std_sort_perm. Qed.

Lemma system_inv_same_teams (s s' : ICPCSystem) :
  teams s' = teams s → Permutation (team_order s') (team_order s) →
  system_inv s → system_inv s'.
Proof.
  intros Ht Hp [H1 H2 H3 H4]. split; rewrite ?Ht; auto.
  - rewrite Hp. assumption.
  - intros k. rewrite Hp. apply H4.
Qed.

Lemma update_scoreboard_inv (s : ICPCSystem) :
  system_inv s → system_inv (update_scoreboard s).
Proof.
  intros Hs. eapply system_inv_same_teams; [| |exact Hs].
  - apply update_scoreboard_teams. exact Hs.
  - apply update_scoreboard_order_perm.
Qed.

(** The printing loop: the rows, and the map it leaves. *)
Lemma print_scoreboard_teams (m : gmap string Team) (order : list string) (i : nat) :
  (∀ k, k ∈ order → is_Some (m !! k)) →
  fst (print_scoreboard m order i) = m.
Proof.
  revert m i. induction order as [|n rest IH]; intros m i H; simpl; [reflexivity|].
  destruct (H n) as [t Ht]; [left|].
  unfold map_index. rewrite Ht.
  specialize (IH m (S i)).
  destruct (print_scoreboard m rest (S i)) as [m2 rows]. simpl in *.
  apply IH. intros k Hk. apply H. right. exact Hk.
Qed.

Lemma print_scoreboard_rows (m : gmap string Team) (order : list string) (i : nat) :
  snd (print_scoreboard m order i) =
    imap (λ j n, ScoreLine (name (teams_at m n)) (Z.of_nat (i + j) + 1)
                   (solved_problems (teams_at m n))
                   (penalty_time (teams_at m n))) order.
Proof.
  revert m i. induction order as [|n rest IH]; intros m i; simpl; [reflexivity|].
  destruct (map_index Team_default m n) as [team m1] eqn:Hidx.
  specialize (IH m1 (S i)).
  destruct (print_scoreboard m1 rest (S i)) as [m2 rows]. simpl in *.
  rewrite IH. f_equal.
  - unfold teams_at. rewrite Hidx. simpl. rewrite Nat.add_0_r. reflexivity.
  - apply imap_ext. intros j k Hk. simpl.
    assert (Hat : teams_at m1 k = teams_at m k).
    { unfold teams_at. rewrite !map_index_fst.
      replace m1 with (snd (map_index Team_default m n)) by (rewrite Hidx; reflexivity).
      apply map_index_snd_default. }
    rewrite Hat. do 2 f_equal. lia.
Qed.

Lemma scroll_not_frozen (s : ICPCSystem) :
  is_frozen s = false →
  scroll s =
    (s, [Text "[Error]Scroll failed: scoreboard has not been frozen.\n"]).
Proof. intros H. unfold scroll. rewrite H. reflexivity. Qed.

Lemma scroll_frozen (s : ICPCSystem) :
  system_inv s → is_frozen s = true →
  scroll s =
    ({| duration_time := duration_time s;
        is_frozen := false;
        teams := teams s;
        team_order := std_sort (compare_teams (teams s)) (team_order s);
        all_submissions := all_submissions s |},
     Text "[Info]Scroll scoreboard.\n" ::
     imap (score_row (teams s))
          (std_sort (compare_teams (teams s)) (team_order s))).
Proof.
  intros Hs Hfr. unfold scroll. rewrite Hfr. cbn [negb].
  fold (unfrozen s).
  assert (Hu : system_inv (unfrozen s)).
  { eapply system_inv_same_teams; [| |exact Hs]; reflexivity. }
  pose proof (update_scoreboard_inv _ Hu) as Hu'.
  pose proof (update_scoreboard_teams _ Hu) as Ht.
  set (s1 := update_scoreboard (unfrozen s)) in *.
  pose proof (print_scoreboard_teams (teams s1) (team_order s1) 0) as Hfst.
  pose proof (print_scoreboard_rows (teams s1) (team_order s1) 0) as Hsnd.
  destruct (print_scoreboard (teams s1) (team_order s1) 0) as [m2 rows].
  cbn [fst snd] in Hfst, Hsnd.
  rewrite Hfst by (intros k; apply (inv_order_registered s1 Hu')).
  rewrite Hsnd, Ht. reflexivity.
Qed.

Lemma add_team_duplicate (s : ICPCSystem) (n : string) :
  is_Some (teams s !! n) →
  add_team s n = (s, [Text "[Error]Add failed: duplicated team name.\n"]).
Proof. intros [t Ht]. unfold add_team. rewrite Ht. reflexivity. Qed.

Lemma submit_unknown (s : ICPCSystem) (n p st : string) (tm : Z) :
  teams s !! n = None →
  submit s n p st tm = (s, [Text "[Error]Submit failed: cannot find the team.\n"]).
Proof. intros H. unfold submit. rewrite H. reflexivity. Qed.

Lemma freeze_frozen (s : ICPCSystem) :
  is_frozen s = true →
  freeze s = (s, [Text "[Error]Freeze failed: scoreboard has been frozen.\n"]).
Proof. intros H. unfold freeze. rewrite H. reflexivity. Qed.

Lemma add_team_inv (s : ICPCSystem) (n : string) :
  system_inv s → system_inv (fst (add_team s n)).
Proof.
  intros Hs. unfold add_team.
  destruct (teams s !! n) eqn:E; [exact Hs|].
  destruct Hs as [H1 H2 H3 H4]. split; simpl.
  - intros k t. rewrite lookup_insert. case_decide.
    + intros [= <-]. simpl. congruence.
    + apply H1.
  - intros k t. rewrite lookup_insert. case_decide.
    + intros [= <-]. apply team_inv_new.
    + apply H2.
  - apply NoDup_app. split; [assumption|]. split; [|apply NoDup_singleton].
    intros k Hk Hk'. apply list_elem_of_singleton in Hk' as ->.
    apply H4 in Hk. rewrite E in Hk. destruct Hk; discriminate.
  - intros k. rewrite elem_of_app, list_elem_of_singleton, lookup_insert_is_Some, H4.
    split.
    + intros [H| ->]; [|left; reflexivity].
      destruct (decide (n = k)); [left; assumption|right; auto].
    + intros [->|[_ H]]; auto.
Qed.

Lemma submit_inv (s : ICPCSystem) (n p st : string) (tm : Z) :
  system_inv s → system_inv (fst (submit s n p st tm)).
Proof.
  intros Hs. unfold submit.
  destruct (teams s !! n) as [t|] eqn:E; [|exact Hs].
  destruct Hs as [H1 H2 H3 H4]. split; simpl; try assumption.
  - intros k t'. rewrite lookup_insert. case_decide.
    + intros [= <-]. rewrite update_team_stats_name. subst k. eauto.
    + apply H1.
  - intros k t'. rewrite lookup_insert. case_decide.
    + intros [= <-]. apply update_team_stats_inv. eauto.
    + apply H2.
  - intros k. rewrite H4, lookup_insert_is_Some. split.
    + intros H. destruct (decide (n = k)); [left; assumption|right; auto].
    + intros [<-|[_ H]]; [rewrite E; eauto|assumption].
Qed.

Lemma scroll_inv (s : ICPCSystem) :
  system_inv s → system_inv (fst (scroll s)).
Proof.
  intros Hs. destruct (is_frozen s) eqn:Hfr.
  - rewrite scroll_frozen by assumption. simpl.
    eapply system_inv_same_teams; [| |exact Hs]; simpl; [reflexivity|].
    apply std_sort_perm.
  - rewrite scroll_not_frozen by assumption. exact Hs.
Qed.

Lemma dispatch_inv (s : ICPCSystem) (c : command) :
  system_inv s → system_inv (fst (dispatch s c)).
Proof.
  intros Hs. destruct c as [d|n|n p st tm| | | |n|n p st|]; simpl.
  - eapply system_inv_same_teams; [| |exact Hs]; reflexivity.
  - apply add_team_inv, Hs.
  - apply submit_inv, Hs.
  - apply update_scoreboard_inv, Hs.
  - unfold freeze. destruct (is_frozen s); [exact Hs|].
    eapply system_inv_same_teams; [| |exact Hs]; reflexivity.
  - apply scroll_inv, Hs.
  - unfold query_ranking. destruct (teams s !! n); exact Hs.
  - unfold query_submission. destruct (teams s !! n); exact Hs.
  - exact Hs.
Qed.

Lemma system_inv_init : system_inv ICPCSystem_init.
Proof.
  split; simpl.
  - intros k t. rewrite lookup_empty. discriminate.
  - intros k t. rewrite lookup_empty. discriminate.
  - constructor.
  - intros k. rewrite lookup_empty. split; [intros H; inversion H|intros [? ?]; discriminate].
Qed.

Theorem reachable_inv (s : ICPCSystem) : reachable s → system_inv s.
Proof.
  induction 1 as [|s c _ IH]; [apply system_inv_init|apply dispatch_inv, IH].
Qed.

(** The loop [run] only passes through reachable states. *)
Lemma run_reachable (s : ICPCSystem) (cmds : list command) :
  reachable s → reachable (fst (run s cmds)).
Proof.
  revert s. induction cmds as [|c rest IH]; intros s Hs; simpl; [exact Hs|].
  pose proof (reachable_step s c Hs) as Hstep.
  destruct (dispatch s c) as [s1 out1]. simpl in Hstep.
  specialize (IH s1 Hstep).
  destruct (run s1 rest) as [s2 out2]. simpl in IH.
  destruct c; assumption.
Qed.

Lemma first_difference_cons (x y : Z) (ta tb : list Z) (i : nat) (u v : Z) :
  x = y →
  first_difference (x :: ta) (y :: tb) (S i) u v ↔ first_difference ta tb i u v.
Proof.
  intros ->. unfold first_difference. simpl. split.
  - intros (H1 & H2 & H3 & H4). repeat split; auto.
    intros j Hj. apply (H4 (S j)). lia.
  - intros (H1 & H2 & H3 & H4). repeat split; auto.
    intros [|j] Hj; simpl; [reflexivity|]. apply H4. lia.
Qed.

Lemma first_difference_unique (ta tb : list Z) (i i' : nat) (x y x' y' : Z) :
  first_difference ta tb i x y → first_difference ta tb i' x' y' →
  i = i' ∧ x = x' ∧ y = y'.
Proof.
  intros (H1 & H2 & H3 & H4) (H1' & H2' & H3' & H4').
  destruct (Nat.lt_trichotomy i i') as [Hlt|[->|Hlt]].
  - specialize (H4' i Hlt). congruence.
  - split; [reflexivity|]. split; congruence.
  - specialize (H4 i' Hlt). congruence.
Qed.

Lemma compare_solve_times_spec (ta tb : list Z) :
  match compare_solve_times ta tb with
  | Some r => ∃ i x y, first_difference ta tb i x y ∧ r = (x <? y)
  | None => ∀ i x y, ¬ first_difference ta tb i x y
  end.
Proof.
  revert tb. induction ta as [|x ta IH]; intros [|y tb]; simpl;
    try (intros i u v (H1 & H2 & _); destruct i; simpl in *; discriminate).
  destruct (Z.eqb_spec x y) as [Heq|Hne]; simpl.
  - specialize (IH tb). destruct (compare_solve_times ta tb) as [r|].
    + destruct IH as (i & u & v & Hfd & Hr).
      exists (S i), u, v. split; [|exact Hr].
      apply first_difference_cons; assumption.
    + intros [|i] u v Hfd.
      * destruct Hfd as (H1 & H2 & H3 & _). simpl in *. congruence.
      * apply first_difference_cons in Hfd; [|assumption]. eapply IH; eauto.
  - exists 0%nat, x, y. split; [|reflexivity].
    repeat split; auto. intros j Hj. lia.
Qed.

Lemma compare_solve_times_refl (ta : list Z) : compare_solve_times ta ta = None.
Proof.
  induction ta as [|x ta IH]; simpl; [reflexivity|].
  rewrite Z.eqb_refl. exact IH.
Qed.

Lemma compare_solve_times_None (ta tb : list Z) :
  length ta = length tb → compare_solve_times ta tb = None → ta = tb.
Proof.
  revert tb. induction ta as [|x ta IH]; intros [|y tb] Hlen; simpl in *;
    try discriminate; [reflexivity|].
  destruct (Z.eqb_spec x y) as [->|Hne]; simpl; [|discriminate].
  intros H. f_equal. apply IH; [lia|assumption].
Qed.

Lemma compare_solve_times_sym (ta tb : list Z) :
  compare_solve_times tb ta = negb <$> compare_solve_times ta tb.
Proof.
  revert tb. induction ta as [|x ta IH]; intros [|y tb]; simpl; try reflexivity.
  rewrite (Z.eqb_sym y x).
  destruct (Z.eqb_spec x y) as [->|Hne]; simpl; [apply IH|].
  f_equal. destruct (Z.ltb_spec y x), (Z.ltb_spec x y); simpl; try reflexivity; lia.
Qed.

Lemma compare_solve_times_trans (ta tb tc : list Z) :
  length ta = length tb → length tb = length tc →
  compare_solve_times ta tb = Some true →
  compare_solve_times tb tc = Some true →
  compare_solve_times ta tc = Some true.
Proof.
  revert tb tc.
  induction ta as [|x ta IH]; intros [|y tb] [|z tc] Hab Hbc; simpl in *;
    try discriminate.
  destruct (Z.eqb_spec x y) as [->|Hxy]; simpl;
    destruct (Z.eqb_spec y z) as [->|Hyz]; simpl.
  - apply IH; lia.
  - intros _ H. exact H.
  - intros H _. destruct (Z.eqb_spec x z); [contradiction|exact H].
  - intros [= H1] [= H2]. apply Z.ltb_lt in H1, H2.
    destruct (Z.eqb_spec x z); simpl; [lia|].
    f_equal. apply Z.ltb_lt. lia.
Qed.

(** The comparator computes the order of the specification, in every
    state. *)
Lemma compare_teams_ranks_before (m : gmap string Team) (a b : string) :
  compare_teams m a b = true ↔ ranks_before m a b.
Proof.
  unfold compare_teams, ranks_before.
  set (teamA := teams_at m a). set (teamB := teams_at m b).
  destruct (Z.eqb_spec (solved_problems teamA) (solved_problems teamB)) as [Hs|Hs];
    simpl.
  2:{ rewrite Z.gtb_ltb, Z.ltb_lt. split; [intros; left; lia|].
      intros [H|[H _]]; [lia|contradiction]. }
  destruct (Z.eqb_spec (penalty_time teamA) (penalty_time teamB)) as [Hp|Hp];
    simpl.
  2:{ rewrite Z.ltb_lt. split; [intros; right; split; auto|].
      intros [H|[_ [H|[H _]]]]; [lia|lia|contradiction]. }
  pose proof (compare_solve_times_spec (solve_times teamA) (solve_times teamB)) as Hc.
  destruct (compare_solve_times (solve_times teamA) (solve_times teamB)) as [r|].
  - destruct Hc as (i & x & y & Hfd & ->). rewrite Z.ltb_lt. split.
    + intros Hlt. right. split; [assumption|]. right. split; [assumption|].
      left. exists i, x, y. auto.
    + intros [H|[_ [H|[_ [H|[H _]]]]]]; try lia.
      * destruct H as (i' & x' & y' & Hfd' & Hlt).
        destruct (first_difference_unique _ _ _ _ _ _ _ _ Hfd Hfd') as (_ & -> & ->).
        exact Hlt.
      * exfalso. eapply H. exact Hfd.
  - split.
    + intros Hlt. right. split; [assumption|]. right. split; [assumption|].
      right. auto.
    + intros [H|[_ [H|[_ [H|[_ H]]]]]]; try lia; [|exact H].
      destruct H as (i & x & y & Hfd & _). exfalso. eapply Hc. exact Hfd.
Qed.

Lemma compare_teams_irrefl (m : gmap string Team) (a : string) :
  compare_teams m a a = false.
Proof.
  unfold compare_teams. rewrite !Z.eqb_refl. simpl.
  rewrite compare_solve_times_refl. apply string_ltb_irrefl.
Qed.

(** For two different names exactly one of the two comparisons holds. *)
Lemma compare_teams_flip (m : gmap string Team) (a b : string) :
  a ≠ b → compare_teams m b a = negb (compare_teams m a b).
Proof.
  intros Hne. unfold compare_teams.
  set (teamA := teams_at m a). set (teamB := teams_at m b).
  rewrite (Z.eqb_sym (solved_problems teamB)), (Z.eqb_sym (penalty_time teamB)).
  destruct (Z.eqb_spec (solved_problems teamA) (solved_problems teamB)) as [Hs|Hs];
    simpl.
  2:{ rewrite !Z.gtb_ltb.
      destruct (Z.ltb_spec (solved_problems teamA) (solved_problems teamB)),
               (Z.ltb_spec (solved_problems teamB) (solved_problems teamA));
        simpl; try reflexivity; lia. }
  destruct (Z.eqb_spec (penalty_time teamA) (penalty_time teamB)) as [Hp|Hp];
    simpl.
  2:{ destruct (Z.ltb_spec (penalty_time teamA) (penalty_time teamB)),
               (Z.ltb_spec (penalty_time teamB) (penalty_time teamA));
        simpl; try reflexivity; lia. }
  rewrite (compare_solve_times_sym (solve_times teamA) (solve_times teamB)).
  destruct (compare_solve_times (solve_times teamA) (solve_times teamB)) as [r|];
    simpl; [reflexivity|].
  destruct (string_ltb_total a b Hne) as [H|H].
  - rewrite H, (string_ltb_asym _ _ H). reflexivity.
  - rewrite H, (string_ltb_asym _ _ H). reflexivity.
Qed.

Lemma compare_teams_asym (m : gmap string Team) (a b : string) :
  compare_teams m a b = true → compare_teams m b a = false.
Proof.
  intros H. destruct (decide (a = b)) as [->|Hne].
  - rewrite compare_teams_irrefl in H. discriminate.
  - rewrite (compare_teams_flip m a b Hne), H. reflexivity.
Qed.

(** Transitivity needs the vectors of teams with the same solved count
    to have the same length, which [team_inv] provides. *)
Lemma compare_teams_trans (m : gmap string Team) (a b c : string) :
  team_inv (teams_at m a) → team_inv (teams_at m b) → team_inv (teams_at m c) →
  compare_teams m a b = true → compare_teams m b c = true →
  compare_teams m a c = true.
Proof.
  intros Ia Ib Ic. unfold compare_teams.
  pose proof (inv_solved_times _ Ia) as La.
  pose proof (inv_solved_times _ Ib) as Lb.
  pose proof (inv_solved_times _ Ic) as Lc.
  set (teamA := teams_at m a) in *. set (teamB := teams_at m b) in *.
  set (teamC := teams_at m c) in *.
  rewrite !Z.gtb_ltb.
  destruct (Z.eqb_spec (solved_problems teamA) (solved_problems teamB)) as [Hab|Hab];
    destruct (Z.eqb_spec (solved_problems teamB) (solved_problems teamC)) as [Hbc|Hbc];
    destruct (Z.eqb_spec (solved_problems teamA) (solved_problems teamC)) as [Hac|Hac];
    simpl; rewrite ?Z.ltb_lt; try lia.
  destruct (Z.eqb_spec (penalty_time teamA) (penalty_time teamB)) as [Pab|Pab];
    destruct (Z.eqb_spec (penalty_time teamB) (penalty_time teamC)) as [Pbc|Pbc];
    destruct (Z.eqb_spec (penalty_time teamA) (penalty_time teamC)) as [Pac|Pac];
    simpl; rewrite ?Z.ltb_lt; try lia.
  assert (Hlab : length (solve_times teamA) = length (solve_times teamB)) by lia.
  assert (Hlbc : length (solve_times teamB) = length (solve_times teamC)) by lia.
  destruct (compare_solve_times (solve_times teamA) (solve_times teamB))
    as [r1|] eqn:E1;
    destruct (compare_solve_times (solve_times teamB) (solve_times teamC))
      as [r2|] eqn:E2.
  - intros -> ->.
    rewrite (compare_solve_times_trans _ _ _ Hlab Hlbc E1 E2). reflexivity.
  - intros -> _. apply compare_solve_times_None in E2; [|assumption].
    rewrite <- E2, E1. reflexivity.
  - intros _ ->. apply compare_solve_times_None in E1; [|assumption].
    rewrite E1, E2. reflexivity.
  - apply compare_solve_times_None in E1; [|assumption].
    apply compare_solve_times_None in E2; [|assumption].
    rewrite E1, E2, compare_solve_times_refl. apply string_ltb_trans.
Qed.

(** ** What one command does to one team *)

Lemma submit_registered (s : ICPCSystem) (n p st : string) (tm : Z) (t : Team) :
  teams s !! n = Some t →
  submit s n p st tm =
    ({| duration_time := duration_time s;
        is_frozen := is_frozen s;
        teams := <[n := update_team_stats t (Build_Submission n p st tm)]> (teams s);
        team_order := team_order s;
        all_submissions := all_submissions s ++ [Build_Submission n p st tm] |},
     [Text "[Info]Submit successfully.\n"]).
Proof. intros H. unfold submit. rewrite H. reflexivity. Qed.

(** The entry of a registered team is only ever replaced by SUBMIT for
    that team, through [update_team_stats]. *)
Lemma dispatch_team (s : ICPCSystem) (c : command) (k : string) (t : Team) :
  system_inv s → teams s !! k = Some t →
  teams (fst (dispatch s c)) !! k = Some t ∨
  ∃ p st tm,
    c = SUBMIT k p st tm ∧
    teams (fst (dispatch s c)) !! k =
      Some (update_team_stats t (Build_Submission k p st tm)).
Proof.
  intros Hs Hk. destruct c as [d|n|n p st tm| | | |n|n p st|]; cbn [dispatch].
  - left. exact Hk.
  - left. unfold add_team. destruct (teams s !! n) eqn:E; simpl; [exact Hk|].
    rewrite lookup_insert_ne; [exact Hk|]. intros ->. congruence.
  - destruct (teams s !! n) as [t0|] eqn:E.
    + rewrite (submit_registered _ _ _ _ _ _ E). simpl.
      destruct (decide (n = k)) as [->|Hne].
      * right. exists p, st, tm. split; [reflexivity|].
        rewrite lookup_insert_eq. congruence.
      * left. rewrite lookup_insert_ne by assumption. exact Hk.
    + left. rewrite submit_unknown by assumption. exact Hk.
  - left. unfold flush_scoreboard. cbn [fst].
    rewrite update_scoreboard_teams by assumption. exact Hk.
  - left. unfold freeze. destruct (is_frozen s); exact Hk.
  - left. destruct (is_frozen s) eqn:Hfr.
    + rewrite scroll_frozen by assumption. exact Hk.
    + rewrite scroll_not_frozen by assumption. exact Hk.
  - left. unfold query_ranking. destruct (teams s !! n); exact Hk.
  - left. unfold query_submission. destruct (teams s !! n); exact Hk.
  - left. exact Hk.
Qed.

(** The history of a team only grows at its end. *)
Lemma dispatch_history (s : ICPCSystem) (c : command) (k : string) (t : Team) :
  system_inv s → teams s !! k = Some t →
  ∃ t' new,
    teams (fst (dispatch s c)) !! k = Some t' ∧
    submissions t' = submissions t ++ new.
Proof.
  intros Hs Hk.
  destruct (dispatch_team s c k t Hs Hk) as [H|(p & st & tm & _ & H)].
  - exists t, []. rewrite app_nil_r. auto.
  - eexists _, _. split; [exact H|]. apply update_team_stats_submissions.
Qed.

(** A value of [first_ac_time] is never overwritten. *)
Lemma update_team_stats_first_ac_kept (t : Team) (sub : Submission) (p : string) (v : Z) :
  first_ac_time t !! p = Some v →
  first_ac_time (update_team_stats t sub) !! p = Some v.
Proof.
  intros Hp. update_team_stats_split t sub; [simpl|exact Hp..].
  rewrite lookup_insert_ne; [exact Hp|]. intros E. congruence.
Qed.

Lemma update_team_stats_solved_mono (t : Team) (sub : Submission) :
  solved_problems t ≤ solved_problems (update_team_stats t sub).
Proof. update_team_stats_split t sub; simpl; lia. Qed.

Lemma update_team_stats_penalty_mono (t : Team) (sub : Submission) :
  team_inv t →
  (status sub = "Accepted" → first_ac_time t !! problem_name sub = None →
   0 ≤ 20 * wrong_count t (problem_name sub) + time sub ∧
   penalty_time t + (20 * wrong_count t (problem_name sub) + time sub) ≤ INT_MAX) →
  penalty_time t ≤ penalty_time (update_team_stats t sub).
Proof.
  intros Ht Hfits. pose proof (inv_penalty_range t Ht) as Hrange.
  update_team_stats_split t sub; simpl; [|lia..].
  destruct Hfits as [Hnn Hmax]; [assumption..|].
  rewrite wrap_int_id by lia. lia.
Qed.

Lemma example_state_reachable : reachable example_state.
Proof. apply run_reachable, reachable_init. Qed.

Lemma example_frozen_reachable : reachable example_frozen.
Proof. apply run_reachable, reachable_init. Qed.

(** Putting one more value into a descending vector at its place. *)
Lemma sorted_desc_insert (l : list Z) (x : Z) :
  sorted_desc l →
  ∃ l1 l2, l = l1 ++ l2 ∧ sorted_desc (l1 ++ x :: l2).
Proof.
  unfold sorted_desc. induction 1 as [|y l Hs IH Hy].
  - exists [], []. split; [reflexivity|]. repeat constructor.
  - destruct (Z_le_gt_dec y x) as [Hle|Hgt].
    + exists [], (y :: l). split; [reflexivity|]. simpl.
      constructor; [constructor; assumption|].
      constructor; [assumption|].
      eapply Forall_impl; [exact Hy|]. simpl. intros z Hz. lia.
    + destruct IH as (l1 & l2 & -> & Hins).
      exists (y :: l1), l2. split; [reflexivity|]. simpl.
      constructor; [assumption|].
      apply Forall_app in Hy as [Hy1 Hy2].
      apply Forall_app. split; [assumption|].
      constructor; [lia|assumption].
Qed.

Lemma sort_reversed_insert (l : list Z) (x : Z) :
  sorted_desc l →
  ∃ l1 l2, l = l1 ++ l2 ∧ sort_reversed (l ++ [x]) = l1 ++ x :: l2.
Proof.
  intros Hs. destruct (sorted_desc_insert l x Hs) as (l1 & l2 & -> & Hins).
  exists l1, l2. split; [reflexivity|].
  apply sorted_desc_unique; [apply sort_reversed_sorted|assumption|].
  rewrite sort_reversed_perm.
  rewrite <- !app_assoc. apply Permutation_app_head.
  symmetry. apply Permutation_cons_append.
Qed.

(** * The claims *)

(** C1 as the specification words it fails: the penalty is an [int].
    Team A has solved [p] at time 2147483647, its penalty; a first
    acceptance of [q] at the same time takes the penalty to [-2], not to
    4294967294. *)
Lemma first_accept_can_wrap : ¬ first_accept_adds_exactly.
Proof.
  intros H.
  pose (s1 := fst (run ICPCSystem_init
                     [ADD_TEAM "A"; SUBMIT "A" "p" "Accepted" 2147483647])).
  assert (Hreach : reachable s1) by apply run_reachable, reachable_init.
  specialize (H s1 "A" "q" 2147483647
                (teams_at (teams s1) "A")
                (teams_at (teams (fst (submit s1 "A" "q" "Accepted" 2147483647))) "A")
                Hreach eq_refl).
  assert (Hno : ¬ Exists (accepted_for "q") (submissions (teams_at (teams s1) "A"))).
  { apply (@bool_decide_eq_false_1
             (Exists (accepted_for "q") (submissions (teams_at (teams s1) "A"))) _).
    vm_compute. reflexivity. }
  specialize (H Hno eq_refl). vm_compute in H. discriminate.
Qed.

(** C1, amended.  The first submission with status "Accepted" that a
    team makes for a problem (no accepted submission for that problem is
    in the team's history) adds [20 * wrong + time] to the penalty in
    [int] arithmetic, where [wrong] is the recorded wrong-submission
    counter of the problem (the number of rejected submissions for it in
    the history): the new penalty is the old one plus [20 * wrong + time]
    brought into the range of [int] modulo [2^32], and it is exactly that
    sum whenever the sum lies in the range of [int].  The submission adds
    one to the solved count, puts the time into the solve-time vector at
    a place that leaves it descending, and records the time as the
    problem's first-acceptance time.  Once the history holds an accepted
    submission for the problem, a further submission for it, whatever
    its status, leaves the solved count, the penalty and the solve-time
    vector as they are.  No command removes a submission from the
    history, so this covers every later submission. *)
Theorem first_accept_only
    (s : ICPCSystem) (n p st : string) (tm : Z) (t : Team) :
  reachable s → teams s !! n = Some t →
  ∃ t',
    teams (fst (submit s n p st tm)) !! n = Some t' ∧
    submissions t' = submissions t ++ [Build_Submission n p st tm] ∧
    (st = "Accepted" → ¬ Exists (accepted_for p) (submissions t) →
       wrong_count t p =
         Z.of_nat (length (filter (rejected_for p) (submissions t))) ∧
       penalty_time t' =
         wrap_int (penalty_time t + (20 * wrong_count t p + tm)) ∧
       (INT_MIN ≤ penalty_time t + (20 * wrong_count t p + tm) ≤ INT_MAX →
        penalty_time t' = penalty_time t + (20 * wrong_count t p + tm)) ∧
       solved_problems t' = solved_problems t + 1 ∧
       (∃ l1 l2, solve_times t = l1 ++ l2 ∧ solve_times t' = l1 ++ tm :: l2) ∧
       sorted_desc (solve_times t') ∧
       first_ac_time t !! p = None ∧
       first_ac_time t' !! p = Some tm) ∧
    (Exists (accepted_for p) (submissions t) →
       solved_problems t' = solved_problems t ∧
       penalty_time t' = penalty_time t ∧
       solve_times t' = solve_times t ∧
       first_ac_time t' = first_ac_time t) ∧
    (∀ c, Exists (accepted_for p) (submissions t) →
       ∃ t'', teams (fst (dispatch s c)) !! n = Some t'' ∧
              Exists (accepted_for p) (submissions t'')).
Proof.
  intros Hreach Hn.
  pose proof (inv_team s (reachable_inv s Hreach) n t Hn) as Ht.
  assert (Hkeep : ∀ c, Exists (accepted_for p) (submissions t) →
            ∃ t'', teams (fst (dispatch s c)) !! n = Some t'' ∧
                   Exists (accepted_for p) (submissions t'')).
  { intros c Hacc.
    destruct (dispatch_history s c n t (reachable_inv s Hreach) Hn)
      as (t'' & new & Ht'' & Hnew).
    exists t''. split; [exact Ht''|].
    rewrite Hnew. apply Exists_app. left. exact Hacc. }
  rewrite (submit_registered _ _ _ _ _ _ Hn). cbn [fst teams].
  rewrite lookup_insert_eq. eexists. split; [reflexivity|].
  set (sub := Build_Submission n p st tm).
  split; [apply update_team_stats_submissions|].
  split; [|split; [|exact Hkeep]].
  - intros -> Hfirst.
    assert (Hnone : first_ac_time t !! problem_name sub = None).
    { apply eq_None_not_Some. intros H. apply Hfirst.
      apply (inv_first_history t Ht). exact H. }
    rewrite update_team_stats_first_ac by (assumption || reflexivity).
    cbn [penalty_time solved_problems solve_times first_ac_time problem_name time sub].
    split; [apply (inv_wrong_history t Ht)|].
    split; [reflexivity|]. split; [apply wrap_int_id|]. split; [reflexivity|].
    split; [apply sort_reversed_insert, (inv_sorted t Ht)|].
    split; [apply sort_reversed_sorted|].
    split; [exact Hnone|apply lookup_insert_eq].
  - intros Hlater.
    assert (Hsome : is_Some (first_ac_time t !! problem_name sub))
      by (apply (inv_first_history t Ht); exact Hlater).
    destruct (decide (st = "Accepted")) as [Hst|Hst].
    + rewrite update_team_stats_later_ac by assumption. auto.
    + rewrite update_team_stats_rejected by assumption. auto.
Qed.

Lemma first_accept_only_witness :
  ∃ t',
    teams (fst (submit example_state "A" "p" "Accepted" 30)) !! "A" = Some t' ∧
    penalty_time t' = 50 ∧ solved_problems t' = 1 ∧
    first_ac_time t' !! "p" = Some 30.
Proof.
  destruct (first_accept_only example_state "A" "p" "Accepted" 30
              (teams_at (teams example_state) "A")
              example_state_reachable eq_refl)
    as (t' & Ht' & _ & Hfirst & _ & _).
  destruct Hfirst as (_ & _ & Hpen & Hsolved & _ & _ & _ & Hrec);
    [reflexivity| |].
  { apply (@bool_decide_eq_false_1
             (Exists (accepted_for "p")
                (submissions (teams_at (teams example_state) "A"))) _).
    vm_compute. reflexivity. }
  exists t'. split; [exact Ht'|].
  split; [apply Hpen; vm_compute; split; discriminate|].
  split; assumption.
Defined.

(** C6.  A submission whose status is not "Accepted" adds exactly one to
    the wrong-submission counter of its problem for that team and leaves
    the counters of the other problems alone, whether or not the team
    has solved the problem already; it changes neither the solved count
    nor the penalty nor the solve-time vector. *)
Theorem rejection_counts
    (s : ICPCSystem) (n p st : string) (tm : Z) (t : Team) :
  teams s !! n = Some t → st ≠ "Accepted" →
  ∃ t',
    teams (fst (submit s n p st tm)) !! n = Some t' ∧
    wrong_count t' p = wrong_count t p + 1 ∧
    (∀ q, q ≠ p → wrong_count t' q = wrong_count t q) ∧
    solved_problems t' = solved_problems t ∧
    penalty_time t' = penalty_time t ∧
    solve_times t' = solve_times t ∧
    first_ac_time t' = first_ac_time t.
Proof.
  intros Hn Hst.
  rewrite (submit_registered _ _ _ _ _ _ Hn). cbn [fst teams].
  rewrite lookup_insert_eq. eexists. split; [reflexivity|].
  rewrite update_team_stats_rejected by assumption.
  unfold wrong_count. simpl. rewrite lookup_insert_eq. simpl.
  split; [reflexivity|]. split; [|auto].
  intros q Hq. rewrite lookup_insert_ne by congruence. reflexivity.
Qed.

(** Team B has solved [p]; a rejection for [p] still raises the
    counter, from 0 to 1. *)
Lemma rejection_counts_witness :
  is_Some (first_ac_time (teams_at (teams example_state) "B") !! "p") ∧
  ∃ t',
    teams (fst (submit example_state "B" "p" "Wrong_Answer" 50)) !! "B" = Some t' ∧
    wrong_count t' "p" = 1 ∧ solved_problems t' = 2 ∧ penalty_time t' = 50 ∧
    solve_times t' = [40; 10].
Proof.
  split; [exists 10; vm_compute; reflexivity|].
  destruct (rejection_counts example_state "B" "p" "Wrong_Answer" 50
              (teams_at (teams example_state) "B") eq_refl)
    as (t' & Ht' & Hw & _ & Hs & Hp & Ht & _);
    [discriminate|].
  exists t'. repeat split; assumption.
Defined.

(** C9 as the specification words it fails in its last part: [submit]
    takes an [int] and does not check its sign, and a first acceptance at
    time [-5] takes the penalty of team A from 0 to [-5]. *)
Lemma penalty_can_decrease : ¬ penalty_never_decreases.
Proof.
  intros H.
  specialize (H example_state (SUBMIT "A" "q" "Accepted" (-5)) "A"
                (teams_at (teams example_state) "A")
                (teams_at (teams (fst (submit example_state "A" "q" "Accepted" (-5)))) "A")
                example_state_reachable eq_refl eq_refl).
  vm_compute in H. apply H. reflexivity.
Qed.

(** With times that are not negative the penalty can drop as well, by
    leaving the range of [int]: two first acceptances at time 2147483647
    give the penalty [-2]. *)
Remark overflow_lowers_penalty :
  let s1 := fst (run ICPCSystem_init
                   [ADD_TEAM "A"; SUBMIT "A" "p" "Accepted" 2147483647]) in
  penalty_time (teams_at (teams s1) "A") = 2147483647 ∧
  penalty_time
    (teams_at (teams (fst (submit s1 "A" "q" "Accepted" 2147483647))) "A") = -2.
Proof. split; vm_compute; reflexivity. Qed.

(** C9, amended.  In a reachable state the statistics of every
    registered team satisfy: the solved count is the number of entries of
    the first-acceptance map and the length of the solve-time vector, the
    vector is descending, and the penalty lies in the range of [int].
    Across any command, a first-acceptance time that is recorded stays as
    it is (each is written once) and the solved count does not decrease.
    The penalty does not decrease either, except possibly at a first
    acceptance whose penalty [20 * wrong + time] is negative (which takes
    a negative time) or takes the total beyond the largest [int]. *)
Theorem ledger_invariant
    (s : ICPCSystem) (c : command) (k : string) (t : Team) :
  reachable s → teams s !! k = Some t →
  (solved_problems t = Z.of_nat (size (first_ac_time t)) ∧
   solved_problems t = Z.of_nat (length (solve_times t)) ∧
   sorted_desc (solve_times t) ∧
   INT_MIN ≤ penalty_time t ≤ INT_MAX) ∧
  ∃ t',
    teams (fst (dispatch s c)) !! k = Some t' ∧
    (∀ p v, first_ac_time t !! p = Some v → first_ac_time t' !! p = Some v) ∧
    solved_problems t ≤ solved_problems t' ∧
    (penalty_step_fits k t c → penalty_time t ≤ penalty_time t').
Proof.
  intros Hreach Hk. pose proof (reachable_inv s Hreach) as Hs.
  pose proof (inv_team s Hs k t Hk) as Ht.
  split.
  - split; [apply (inv_solved_first t Ht)|].
    split; [apply (inv_solved_times t Ht)|].
    split; [apply (inv_sorted t Ht)|apply (inv_penalty_range t Ht)].
  - destruct (dispatch_team s c k t Hs Hk) as [H|(p & st & tm & -> & H)].
    + exists t. split; [exact H|]. split; [auto|]. split; intros; lia.
    + eexists. split; [exact H|]. split; [|split].
      * intros q v. apply update_team_stats_first_ac_kept.
      * apply update_team_stats_solved_mono.
      * simpl. intros Hfits.
        apply update_team_stats_penalty_mono; [assumption|]. simpl.
        intros Hst Hnone. apply Hfits; auto.
Qed.

Lemma ledger_invariant_witness :
  ∃ t',
    teams (fst (dispatch example_state (SUBMIT "B" "r" "Accepted" 60))) !! "B"
      = Some t' ∧
    first_ac_time t' !! "p" = Some 10 ∧
    2 ≤ solved_problems t' ∧ 50 ≤ penalty_time t'.
Proof.
  destruct (ledger_invariant example_state (SUBMIT "B" "r" "Accepted" 60) "B"
              (teams_at (teams example_state) "B")
              example_state_reachable eq_refl)
    as (_ & t' & Ht' & Hkept & Hsolved & Hpen).
  exists t'. split; [exact Ht'|].
  split; [apply Hkept; vm_compute; reflexivity|].
  split; [exact Hsolved|]. apply Hpen.
  intros _ _ _. vm_compute. split; discriminate.
Defined.

(** C2.  In every reachable state the comparator is the order of the
    specification (solved count, higher first; penalty, lower first;
    the descending solve-time vectors compared from their first, largest,
    element, the smaller value at the first difference first; name,
    smaller first), and it is a strict total order on team names: no
    name is before itself, of two different names exactly one is before
    the other, and the relation is transitive. *)
Theorem compare_teams_strict_total_order (s : ICPCSystem) :
  reachable s →
  (∀ a b, compare_teams (teams s) a b = true ↔ ranks_before (teams s) a b) ∧
  (∀ a, sorted_desc (solve_times (teams_at (teams s) a))) ∧
  (∀ a, compare_teams (teams s) a a = false) ∧
  (∀ a b, a ≠ b →
     compare_teams (teams s) b a = negb (compare_teams (teams s) a b)) ∧
  (∀ a b c,
     compare_teams (teams s) a b = true → compare_teams (teams s) b c = true →
     compare_teams (teams s) a c = true).
Proof.
  intros Hreach. pose proof (reachable_inv s Hreach) as Hs.
  split; [apply compare_teams_ranks_before|].
  split; [intros a; apply inv_sorted, teams_at_inv, Hs|].
  split; [apply compare_teams_irrefl|].
  split; [apply compare_teams_flip|].
  intros a b c. apply compare_teams_trans; apply teams_at_inv, Hs.
Qed.

(** Team B (two problems) is before team A (none), and not the other
    way round. *)
Lemma compare_teams_strict_total_order_witness :
  compare_teams (teams example_state) "B" "A" = true ∧
  compare_teams (teams example_state) "A" "B" = false.
Proof.
  destruct (compare_teams_strict_total_order example_state
              example_state_reachable) as (_ & _ & _ & Hflip & _).
  assert (HBA : compare_teams (teams example_state) "B" "A" = true)
    by (vm_compute; reflexivity).
  split; [exact HBA|].
  rewrite (Hflip "B" "A") by discriminate. rewrite HBA. reflexivity.
Defined.

(** ** SCROLL *)

Lemma registered_name (s : ICPCSystem) (k : string) :
  system_inv s → is_Some (teams s !! k) → name (teams_at (teams s) k) = k.
Proof.
  intros Hs [t Ht]. rewrite (teams_at_present _ _ _ Ht).
  eapply inv_team_name; eauto.
Qed.

Lemma compare_teams_sorts (s : ICPCSystem) :
  system_inv s →
  StronglySorted (λ a b, compare_teams (teams s) a b = true)
    (std_sort (compare_teams (teams s)) (team_order s)).
Proof.
  intros Hs.
  apply (std_sort_strictly_sorted (compare_teams (teams s)) (λ _, True)).
  - intros a b _ _. apply compare_teams_asym.
  - intros a b c _ _ _. apply compare_teams_trans; apply teams_at_inv, Hs.
  - intros a b _ _ Hne.
    rewrite (compare_teams_flip (teams s) a b Hne).
    destruct (compare_teams (teams s) a b); auto.
  - apply Forall_forall. auto.
  - apply (inv_order_nodup s Hs).
Qed.

Lemma compare_teams_sort_unique (s : ICPCSystem) (l : list string) :
  system_inv s →
  Permutation l (team_order s) →
  StronglySorted (λ a b, compare_teams (teams s) a b = true) l →
  l = std_sort (compare_teams (teams s)) (team_order s).
Proof.
  intros Hs Hperm Hsorted.
  apply (std_sort_unique (compare_teams (teams s)) (λ _, True)); auto.
  - intros a b _ _. apply compare_teams_asym.
  - intros a b c _ _ _. apply compare_teams_trans; apply teams_at_inv, Hs.
  - intros a b _ _ Hne.
    rewrite (compare_teams_flip (teams s) a b Hne).
    destruct (compare_teams (teams s) a b); auto.
  - apply Forall_forall. auto.
  - apply (inv_order_nodup s Hs).
Qed.

Lemma scroll_rows (s : ICPCSystem) :
  system_inv s → is_frozen s = true →
  snd (scroll s) =
    Text "[Info]Scroll scoreboard.\n" ::
    imap (λ i n,
            ScoreLine n (Z.of_nat i + 1)
              (solved_problems (teams_at (teams s) n))
              (penalty_time (teams_at (teams s) n)))
         (std_sort (compare_teams (teams s)) (team_order s)).
Proof.
  intros Hs Hfr. rewrite (scroll_frozen s Hs Hfr). cbn [snd].
  f_equal. apply imap_ext. intros i n Hn. unfold score_row.
  rewrite (registered_name s n Hs); [reflexivity|].
  apply (inv_order_registered s Hs).
  rewrite <- (std_sort_perm (compare_teams (teams s)) (team_order s)).
  apply list_elem_of_lookup. eauto.
Qed.

(** C3.  SCROLL on a frozen scoreboard clears the flag, leaves the teams
    as they are, and replaces the visible order by its arrangement under
    the comparator: a permutation of the old order in which every team
    is before all later ones, the only such arrangement.  It writes the
    header and then, for the team at index [i] of the new order, one row
    with the team's name, the rank [i + 1], its solved count and its
    penalty.  SCROLL on a scoreboard that is not frozen writes the error
    and returns the state it was given. *)
Theorem scroll_spec (s : ICPCSystem) :
  reachable s →
  (is_frozen s = true →
     ∃ order',
       fst (scroll s) =
         {| duration_time := duration_time s;
            is_frozen := false;
            teams := teams s;
            team_order := order';
            all_submissions := all_submissions s |} ∧
       Permutation order' (team_order s) ∧
       StronglySorted (λ a b, compare_teams (teams s) a b = true) order' ∧
       (∀ l, Permutation l (team_order s) →
             StronglySorted (λ a b, compare_teams (teams s) a b = true) l →
             l = order') ∧
       snd (scroll s) =
         Text "[Info]Scroll scoreboard.\n" ::
         imap (λ i n,
                 ScoreLine n (Z.of_nat i + 1)
                   (solved_problems (teams_at (teams s) n))
                   (penalty_time (teams_at (teams s) n))) order') ∧
  (is_frozen s = false →
     scroll s =
       (s, [Text "[Error]Scroll failed: scoreboard has not been frozen.\n"])).
Proof.
  intros Hreach. pose proof (reachable_inv s Hreach) as Hs.
  split; [|apply scroll_not_frozen].
  intros Hfr.
  exists (std_sort (compare_teams (teams s)) (team_order s)).
  split; [rewrite (scroll_frozen s Hs Hfr); reflexivity|].
  split; [apply std_sort_perm|].
  split; [apply compare_teams_sorts, Hs|].
  split; [intros l; apply compare_teams_sort_unique, Hs|].
  apply scroll_rows; assumption.
Qed.

Lemma scroll_spec_witness :
  team_order example_frozen = ["A"; "B"] ∧
  team_order (fst (scroll example_frozen)) = ["B"; "A"] ∧
  is_frozen (fst (scroll example_frozen)) = false ∧
  map render (snd (scroll example_frozen)) =
    ["[Info]Scroll scoreboard.\n"; "B 1 2 50\n"; "A 2 0 0\n"] ∧
  snd (scroll (fst (scroll example_frozen))) =
    [Text "[Error]Scroll failed: scoreboard has not been frozen.\n"].
Proof.
  destruct (scroll_spec example_frozen example_frozen_reachable)
    as [Hfrozen _].
  destruct Hfrozen as (order' & Hst & _ & _ & Huniq & Hout); [reflexivity|].
  assert (Horder : ["B"; "A"] = order').
  { apply Huniq; [apply perm_swap|].
    repeat constructor; vm_compute; reflexivity. }
  subst order'.
  split; [reflexivity|]. split; [rewrite Hst; reflexivity|].
  split; [rewrite Hst; reflexivity|].
  split; [rewrite Hout; vm_compute; reflexivity|].
  rewrite Hst. reflexivity.
Defined.

(** C4.  Each failing operation writes its error and returns the state
    it was given, whole: ADD_TEAM with a name that is registered, SUBMIT
    for a name that is not, FREEZE when the flag is set, SCROLL when it
    is clear.  So no team is added, no statistics or history change, and
    the flag and the visible order stay. *)
Theorem failures_change_nothing (s : ICPCSystem) :
  (∀ n, is_Some (teams s !! n) →
     add_team s n = (s, [Text "[Error]Add failed: duplicated team name.\n"])) ∧
  (∀ n p st tm, teams s !! n = None →
     submit s n p st tm =
       (s, [Text "[Error]Submit failed: cannot find the team.\n"])) ∧
  (is_frozen s = true →
     freeze s =
       (s, [Text "[Error]Freeze failed: scoreboard has been frozen.\n"])) ∧
  (is_frozen s = false →
     scroll s =
       (s, [Text "[Error]Scroll failed: scoreboard has not been frozen.\n"])).
Proof.
  split; [apply add_team_duplicate|].
  split; [apply submit_unknown|].
  split; [apply freeze_frozen|apply scroll_not_frozen].
Qed.

Lemma failures_change_nothing_witness :
  fst (add_team example_state "A") = example_state ∧
  fst (submit example_state "C" "p" "Accepted" 7) = example_state ∧
  fst (freeze example_frozen) = example_frozen ∧
  fst (scroll example_state) = example_state.
Proof.
  destruct (failures_change_nothing example_state) as (Hadd & Hsub & _ & Hscroll).
  destruct (failures_change_nothing example_frozen) as (_ & _ & Hfreeze & _).
  rewrite Hadd by (eexists; vm_compute; reflexivity).
  rewrite Hsub by (vm_compute; reflexivity).
  rewrite Hfreeze by reflexivity.
  rewrite Hscroll by reflexivity.
  repeat split.
Defined.

(** C5 fails for ADD_TEAM: registering the first team turns the empty
    order into a one-element one. *)
Lemma add_team_changes_order : ¬ order_untouched_by (ADD_TEAM "A").
Proof.
  intros H. specialize (H ICPCSystem_init reachable_init).
  vm_compute in H. discriminate.
Qed.

(** C5, amended.  SUBMIT, FREEZE, QUERY_RANKING, QUERY_SUBMISSION (and
    START and END) return the visible order they were given, and so does
    ADD_TEAM with a name that is registered.  ADD_TEAM with a new name
    appends that name at the end, so the teams already present keep
    their positions.  FLUSH and SCROLL are the commands that rearrange
    the order. *)
Theorem visible_order_frame (s : ICPCSystem) (c : command) :
  match c with
  | FLUSH | SCROLL => Permutation (team_order (fst (dispatch s c))) (team_order s)
  | ADD_TEAM n =>
      team_order (fst (dispatch s c)) =
        if decide (is_Some (teams s !! n)) then team_order s
        else team_order s ++ [n]
  | _ => team_order (fst (dispatch s c)) = team_order s
  end.
Proof.
  destruct c as [d|n|n p st tm| | | |n|n p st|]; cbn [dispatch].
  - reflexivity.
  - unfold add_team. destruct (teams s !! n) eqn:E.
    + rewrite decide_True by eauto. reflexivity.
    + rewrite decide_False by (intros [? ?]; discriminate). reflexivity.
  - unfold submit. destruct (teams s !! n); reflexivity.
  - apply std_sort_perm.
  - unfold freeze. destruct (is_frozen s); reflexivity.
  - unfold scroll. destruct (is_frozen s); cbn [negb]; [|reflexivity].
    destruct (print_scoreboard _ _ _). apply std_sort_perm.
  - unfold query_ranking. destruct (teams s !! n); reflexivity.
  - unfold query_submission. destruct (teams s !! n); reflexivity.
  - reflexivity.
Qed.

(** ** QUERY_SUBMISSION *)

Lemma submission_matches_spec (p st : string) (sub : Submission) :
  submission_matches p st sub = true ↔
  (p = "ALL" ∨ problem_name sub = p) ∧ (st = "ALL" ∨ status sub = st).
Proof.
  unfold submission_matches.
  rewrite andb_true_iff, !orb_true_iff, !String.eqb_eq. reflexivity.
Qed.

Lemma find_submission_spec (p st : string) (r : list Submission) :
  match find_submission p st r with
  | Some sub =>
      ∃ r1 r2, r = r1 ++ sub :: r2 ∧
               Forall (λ x, submission_matches p st x = false) r1 ∧
               submission_matches p st sub = true
  | None => Forall (λ x, submission_matches p st x = false) r
  end.
Proof.
  induction r as [|x r IH]; simpl; [constructor|].
  destruct (submission_matches p st x) eqn:E.
  - exists [], r. repeat split; [constructor|assumption].
  - destruct (find_submission p st r) as [sub|].
    + destruct IH as (r1 & r2 & -> & Hr1 & Hm).
      exists (x :: r1), r2. repeat split; [constructor|]; assumption.
    + constructor; assumption.
Qed.

(** C7.  For a registered team QUERY_SUBMISSION writes its header and
    then the newest submission of the team's history that matches both
    filters (every submission received after it fails a filter), or the
    not-found text when no submission of the history matches; a filter
    that is "ALL" matches everything, any other filter matches by
    equality.  The state is returned as given, and what is written does
    not depend on the freeze flag.  For a name that is not registered the
    query writes the error. *)
Theorem query_submission_spec (s : ICPCSystem) (n p st : string) :
  (∀ sub, submission_matches p st sub = true ↔
          (p = "ALL" ∨ problem_name sub = p) ∧ (st = "ALL" ∨ status sub = st)) ∧
  (∀ t, teams s !! n = Some t →
     fst (query_submission s n p st) = s ∧
     ((∃ older sub newer,
         submissions t = older ++ sub :: newer ∧
         submission_matches p st sub = true ∧
         Forall (λ x, submission_matches p st x = false) newer ∧
         snd (query_submission s n p st) =
           [Text "[Info]Complete query submission.\n"; SubmissionLine sub]) ∨
      (Forall (λ x, submission_matches p st x = false) (submissions t) ∧
       snd (query_submission s n p st) =
         [Text "[Info]Complete query submission.\n";
          Text "Cannot find any submission.\n"]))) ∧
  (teams s !! n = None →
     query_submission s n p st =
       (s, [Text "[Error]Query submission failed: cannot find the team.\n"])) ∧
  (∀ b, snd (query_submission (with_frozen s b) n p st) =
        snd (query_submission s n p st)).
Proof.
  split; [apply submission_matches_spec|]. split; [|split].
  - intros t Ht. unfold query_submission. rewrite Ht. cbn [fst snd].
    split; [reflexivity|].
    pose proof (find_submission_spec p st (rev (submissions t))) as Hfind.
    destruct (find_submission p st (rev (submissions t))) as [sub|].
    + left. destruct Hfind as (r1 & r2 & Hrev & Hr1 & Hm).
      exists (rev r2), sub, (rev r1). repeat split; auto.
      * rewrite <- (rev_involutive (submissions t)), Hrev.
        rewrite rev_app_distr. simpl. rewrite <- app_assoc. reflexivity.
      * apply Forall_forall. intros x Hx. rewrite Forall_forall in Hr1.
        apply Hr1. apply list_elem_of_In. apply in_rev.
        apply list_elem_of_In. exact Hx.
    + right. split; [|reflexivity].
      apply Forall_forall. intros x Hx. rewrite Forall_forall in Hfind.
      apply Hfind. apply list_elem_of_In. apply -> in_rev.
      apply list_elem_of_In. exact Hx.
  - intros Hn. unfold query_submission. rewrite Hn. reflexivity.
  - intros b. unfold query_submission, with_frozen. cbn [teams].
    destruct (teams s !! n); reflexivity.
Qed.

(** Team B's newest submission for [p] is the one accepted at time 10;
    team C is not registered. *)
Lemma query_submission_spec_witness :
  fst (query_submission example_state "B" "p" "ALL") = example_state ∧
  map render (snd (query_submission example_state "B" "p" "ALL")) =
    ["[Info]Complete query submission.\n"; "B p Accepted 10\n"] ∧
  snd (query_submission example_state "C" "ALL" "ALL") =
    [Text "[Error]Query submission failed: cannot find the team.\n"].
Proof.
  destruct (query_submission_spec example_state "B" "p" "ALL")
    as (_ & Hreg & _ & _).
  destruct (Hreg (teams_at (teams example_state) "B") eq_refl) as [Hst _].
  destruct (query_submission_spec example_state "C" "ALL" "ALL")
    as (_ & _ & Hunknown & _).
  split; [exact Hst|]. split; [vm_compute; reflexivity|].
  rewrite Hunknown by (vm_compute; reflexivity). reflexivity.
Defined.

(** ** QUERY_RANKING *)

Lemma find_ranking_spec (order : list string) (n : string) (r : Z) :
  n ∈ order →
  ∃ i, order !! i = Some n ∧
       (∀ j, (j < i)%nat → order !! j ≠ Some n) ∧
       find_ranking order n r = [RankingLine n (r + Z.of_nat i)].
Proof.
  revert r. induction order as [|k order IH]; intros r Hin.
  - inversion Hin.
  - simpl. destruct (String.eqb_spec k n) as [->|Hne].
    + exists 0%nat. split; [reflexivity|]. split; [intros j Hj; lia|].
      rewrite Z.add_0_r. reflexivity.
    + apply elem_of_cons in Hin as [->|Hin]; [contradiction|].
      destruct (IH (r + 1) Hin) as (i & Hi & Hfirst & Hout).
      exists (S i). split; [exact Hi|]. split.
      * intros [|j] Hj; simpl; [congruence|]. apply Hfirst. lia.
      * rewrite Hout. do 2 f_equal. lia.
Qed.

Lemma query_ranking_registered (s : ICPCSystem) (n : string) :
  system_inv s → is_Some (teams s !! n) →
  ∃ i, team_order s !! i = Some n ∧
       query_ranking s n =
         (s, frozen_warning s ++ [RankingLine n (Z.of_nat i + 1)]).
Proof.
  intros Hs Hreg.
  assert (Hin : n ∈ team_order s) by (apply (inv_order_registered s Hs); exact Hreg).
  destruct (find_ranking_spec (team_order s) n 1 Hin) as (i & Hi & _ & Hout).
  exists i. split; [exact Hi|].
  unfold query_ranking, frozen_warning. destruct Hreg as [t Ht]. rewrite Ht.
  rewrite Hout. do 4 f_equal. lia.
Qed.

(** C8.  For a registered team QUERY_RANKING writes the team's position
    in the visible order, counted from 1 (the team is at index [i] and
    the rank written is [i + 1]).  The warning is written before it
    exactly when the scoreboard is frozen, and the rank line follows in
    both cases.  For a name that is not registered the query writes the
    error.  The state is returned as given. *)
Theorem query_ranking_spec (s : ICPCSystem) (n : string) :
  reachable s →
  (is_Some (teams s !! n) →
     ∃ i, team_order s !! i = Some n ∧
          query_ranking s n =
            (s, frozen_warning s ++ [RankingLine n (Z.of_nat i + 1)])) ∧
  (frozen_warning s ≠ [] ↔ is_frozen s = true) ∧
  (teams s !! n = None →
     query_ranking s n =
       (s, [Text "[Error]Query ranking failed: cannot find the team.\n"])).
Proof.
  intros Hreach. pose proof (reachable_inv s Hreach) as Hs.
  split; [|split].
  - apply query_ranking_registered, Hs.
  - unfold frozen_warning. destruct (is_frozen s); split; congruence.
  - intros Hn. unfold query_ranking. rewrite Hn. reflexivity.
Qed.

Lemma query_ranking_spec_witness :
  map render (snd (query_ranking example_frozen "B")) =
    ["[Warning]Scoreboard is frozen. The ranking may be inaccurate until it were scrolled.\n";
     "[B] NOW AT RANKING 2\n"] ∧
  fst (query_ranking example_frozen "B") = example_frozen.
Proof.
  destruct (query_ranking_spec example_frozen "B" example_frozen_reachable)
    as (Hrank & _ & _).
  destruct Hrank as (i & Hi & Hq); [eexists; vm_compute; reflexivity|].
  rewrite Hq. cbn [fst snd]. split; [|reflexivity].
  destruct i as [|[|i]]; vm_compute in Hi; try discriminate.
  vm_compute. reflexivity.
Defined.

(** ** The visible order and the registered teams *)

Lemma order_length (s : ICPCSystem) :
  system_inv s → length (team_order s) = size (teams s).
Proof.
  intros Hs. rewrite <- size_dom. unfold size, set_size. simpl.
  apply Permutation_length. apply NoDup_Permutation.
  - apply (inv_order_nodup s Hs).
  - apply NoDup_elements.
  - intros k. rewrite elem_of_elements, elem_of_dom.
    apply (inv_order_registered s Hs).
Qed.

Lemma row_team_imap (l : list string) (rank solved penalty : nat → string → Z) :
  omap row_team
    (imap (λ i n, ScoreLine n (rank i n) (solved i n) (penalty i n)) l) = l.
Proof.
  revert rank solved penalty.
  induction l as [|x l IH]; intros rank solved penalty; simpl; [reflexivity|].
  f_equal. apply (IH (λ i, rank (S i)) (λ i, solved (S i)) (λ i, penalty (S i))).
Qed.

(** C10.  In every reachable state the visible order has no repetition
    and its elements are exactly the registered names, so its length is
    the number of teams.  Hence QUERY_RANKING for a registered team
    writes a rank between 1 and the number of teams, and the rows that
    SCROLL writes on a frozen scoreboard name every registered team, each
    once. *)
Theorem order_is_registered_set (s : ICPCSystem) :
  reachable s →
  NoDup (team_order s) ∧
  (∀ k, k ∈ team_order s ↔ is_Some (teams s !! k)) ∧
  length (team_order s) = size (teams s) ∧
  (∀ n, is_Some (teams s !! n) →
     ∃ r, 1 ≤ r ≤ Z.of_nat (size (teams s)) ∧
          snd (query_ranking s n) = frozen_warning s ++ [RankingLine n r]) ∧
  (is_frozen s = true →
     ∃ rows,
       snd (scroll s) = Text "[Info]Scroll scoreboard.\n" :: rows ∧
       Forall (λ o, is_Some (row_team o)) rows ∧
       NoDup (omap row_team rows) ∧
       ∀ k, k ∈ omap row_team rows ↔ is_Some (teams s !! k)).
Proof.
  intros Hreach. pose proof (reachable_inv s Hreach) as Hs.
  split; [apply (inv_order_nodup s Hs)|].
  split; [apply (inv_order_registered s Hs)|].
  split; [apply order_length, Hs|]. split.
  - intros n Hreg.
    destruct (query_ranking_registered s n Hs Hreg) as (i & Hi & Hq).
    exists (Z.of_nat i + 1). rewrite Hq. split; [|reflexivity].
    apply lookup_lt_Some in Hi. rewrite (order_length s Hs) in Hi. lia.
  - intros Hfr.
    pose proof (scroll_rows s Hs Hfr) as Hout.
    pose proof (std_sort_perm (compare_teams (teams s)) (team_order s)) as Hperm.
    set (order' := std_sort (compare_teams (teams s)) (team_order s)) in *.
    eexists. split; [exact Hout|].
    split.
    + apply Forall_forall. intros o Ho.
      apply elem_of_lookup_imap in Ho as (i & n & -> & _). simpl. eauto.
    + pose proof (row_team_imap order' (λ i _, Z.of_nat i + 1)
                    (λ _ n, solved_problems (teams_at (teams s) n))
                    (λ _ n, penalty_time (teams_at (teams s) n))) as Hnames.
      cbn beta in Hnames. rewrite Hnames.
      split.
      * rewrite Hperm. apply (inv_order_nodup s Hs).
      * intros k. rewrite Hperm. apply (inv_order_registered s Hs).
Qed.

Lemma order_is_registered_set_witness :
  team_order example_frozen = ["A"; "B"] ∧
  size (teams example_frozen) = 2%nat ∧
  ∃ rows,
    snd (scroll example_frozen) = Text "[Info]Scroll scoreboard.\n" :: rows ∧
    NoDup (omap row_team rows).
Proof.
  destruct (order_is_registered_set example_frozen example_frozen_reachable)
    as (_ & _ & Hlen & _ & Hscroll).
  destruct Hscroll as (rows & Hout & _ & Hnd & _); [reflexivity|].
  split; [reflexivity|]. split; [rewrite <- Hlen; reflexivity|].
  exists rows. split; assumption.
Defined.

(** ** The scenarios of section 8 of the specification *)

(** A solves [p1] at 10; B is rejected once and then solves [p1] at 15.
    After FLUSH the order is A, B with penalties 10 and 35. *)
Example scenario_flush :
  let s := fst (run ICPCSystem_init
                  [ADD_TEAM "A"; ADD_TEAM "B";
                   SUBMIT "A" "p1" "Accepted" 10;
                   SUBMIT "B" "p1" "Wrong_Answer" 5;
                   SUBMIT "B" "p1" "Accepted" 15;
                   FLUSH]) in
  team_order s = ["A"; "B"] ∧
  solved_problems (teams_at (teams s) "A") = 1 ∧
  penalty_time (teams_at (teams s) "A") = 10 ∧
  solved_problems (teams_at (teams s) "B") = 1 ∧
  penalty_time (teams_at (teams s) "B") = 35.
Proof. vm_compute. repeat split; reflexivity. Qed.

(** The rank of a team is the same before and after SCROLL when no
    change was pending; only the warning goes away. *)
Example scenario_rank_after_scroll :
  snd (run ICPCSystem_init
         [ADD_TEAM "A"; ADD_TEAM "B"; FLUSH; FREEZE;
          QUERY_RANKING "B"; SCROLL; QUERY_RANKING "B"]) =
    [Text "[Info]Add successfully.\n";
     Text "[Info]Add successfully.\n";
     Text "[Info]Flush scoreboard.\n";
     Text "[Info]Freeze scoreboard.\n";
     Text "[Warning]Scoreboard is frozen. The ranking may be inaccurate until it were scrolled.\n";
     RankingLine "B" 2;
     Text "[Info]Scroll scoreboard.\n";
     ScoreLine "A" 1 0 0;
     ScoreLine "B" 2 0 0;
     RankingLine "B" 2].
Proof. vm_compute. reflexivity. Qed.

(** * Further properties of the code *)

(** ** Where a team record comes from *)

Lemma add_team_new (s : ICPCSystem) (n : string) :
  teams s !! n = None →
  add_team s n =
    ({| duration_time := duration_time s;
        is_frozen := is_frozen s;
        teams := <[n := Team_new n]> (teams s);
        team_order := team_order s ++ [n];
        all_submissions := all_submissions s |},
     [Text "[Info]Add successfully.\n"]).
Proof. intros H. unfold add_team. rewrite H. reflexivity. Qed.

(** Every record of the next state is a record of this state, possibly
    updated by a SUBMIT for its team, or the record of a new team. *)
Lemma dispatch_team_origin
    (s : ICPCSystem) (c : command) (k : string) (t' : Team) :
  system_inv s → teams (fst (dispatch s c)) !! k = Some t' →
  (∃ t, teams s !! k = Some t ∧
        (t' = t ∨
         ∃ p st tm, c = SUBMIT k p st tm ∧
                    t' = update_team_stats t (Build_Submission k p st tm))) ∨
  (teams s !! k = None ∧ c = ADD_TEAM k ∧ t' = Team_new k).
Proof.
  intros Hs Hk'. destruct (teams s !! k) as [t|] eqn:Hk.
  - left. exists t. split; [reflexivity|].
    destruct (dispatch_team s c k t Hs Hk) as [H|(p & st & tm & Hc & H)].
    + left. congruence.
    + right. exists p, st, tm. split; [exact Hc|]. congruence.
  - right. split; [reflexivity|].
    destruct c as [d|n|n p st tm| | | |n|n p st|]; cbn [dispatch] in Hk'.
    + simpl in Hk'. congruence.
    + destruct (teams s !! n) as [t0|] eqn:E.
      * rewrite add_team_duplicate in Hk' by eauto. simpl in Hk'. congruence.
      * rewrite add_team_new in Hk' by assumption. simpl in Hk'.
        destruct (decide (n = k)) as [->|Hne].
        -- rewrite lookup_insert_eq in Hk'. split; congruence.
        -- rewrite lookup_insert_ne in Hk' by assumption. congruence.
    + destruct (teams s !! n) as [t0|] eqn:E.
      * rewrite (submit_registered _ _ _ _ _ _ E) in Hk'. simpl in Hk'.
        rewrite lookup_insert_ne in Hk' by congruence. congruence.
      * rewrite submit_unknown in Hk' by assumption. simpl in Hk'. congruence.
    + unfold flush_scoreboard in Hk'. cbn [fst] in Hk'.
      rewrite update_scoreboard_teams in Hk' by assumption. congruence.
    + unfold freeze in Hk'. destruct (is_frozen s); simpl in Hk'; congruence.
    + destruct (is_frozen s) eqn:Hfr.
      * rewrite scroll_frozen in Hk' by assumption. simpl in Hk'. congruence.
      * rewrite scroll_not_frozen in Hk' by assumption. simpl in Hk'. congruence.
    + unfold query_ranking in Hk'. destruct (teams s !! n); simpl in Hk'; congruence.
    + unfold query_submission in Hk'. destruct (teams s !! n); simpl in Hk'; congruence.
    + simpl in Hk'. congruence.
Qed.

(** A property of team records that new teams have and that
    [update_team_stats] keeps for the submissions of the team holds of
    every record in every reachable state. *)
Lemma reachable_team_ind (Q : string → Team → Prop) :
  (∀ k, Q k (Team_new k)) →
  (∀ k t p st tm, Q k t → Q k (update_team_stats t (Build_Submission k p st tm))) →
  ∀ s, reachable s → ∀ k t, teams s !! k = Some t → Q k t.
Proof.
  intros Hnew Hupd s Hreach.
  induction Hreach as [|s c Hreach IH]; intros k t Hk.
  - simpl in Hk. rewrite lookup_empty in Hk. discriminate.
  - destruct (dispatch_team_origin s c k t (reachable_inv s Hreach) Hk)
      as [(t0 & Ht0 & [->|(p & st & tm & _ & ->)])|(_ & _ & ->)].
    + apply IH. exact Ht0.
    + apply Hupd, IH. exact Ht0.
    + apply Hnew.
Qed.

(** ** The statistics as functions of the history *)

Lemma Exists_rev {A} (P : A → Prop) (l : list A) :
  Exists P (rev l) ↔ Exists P l.
Proof.
  rewrite !Exists_exists. split; intros (x & Hx & HP); exists x; split; auto.
  - apply list_elem_of_In. apply in_rev. apply list_elem_of_In. exact Hx.
  - apply list_elem_of_In. apply -> in_rev. apply list_elem_of_In. exact Hx.
Qed.

Lemma filter_rev_length {A} (P : A → Prop) `{∀ x, Decision (P x)} (l : list A) :
  length (filter P (rev l)) = length (filter P l).
Proof.
  induction l as [|x l IH]; simpl; [reflexivity|].
  rewrite filter_app, length_app, IH, filter_cons, (filter_cons _ x l).
  destruct (decide (P x)); simpl; lia.
Qed.

Lemma sum_Z_cons (x : Z) (l : list Z) : sum_Z (x :: l) = x + sum_Z l.
Proof. reflexivity. Qed.

Lemma first_accepts_accepted (r : list Submission) (fa : Submission * Z) :
  fa ∈ first_accepts r → Exists (accepted_for (problem_name (fst fa))) r.
Proof.
  induction r as [|sub older IH]; simpl; [intros H; inversion H|].
  rewrite elem_of_app. intros [H|H].
  - case_decide as Hd; [|inversion H].
    apply list_elem_of_singleton in H as ->. simpl.
    apply Exists_cons. left. split; [reflexivity|apply Hd].
  - apply Exists_cons. right. apply IH, H.
Qed.

Lemma first_accepts_cons_first (sub : Submission) (older : list Submission) :
  status sub = "Accepted" → ¬ Exists (accepted_for (problem_name sub)) older →
  first_accepts (sub :: older) =
    (sub, Z.of_nat (length (filter (rejected_for (problem_name sub)) older)))
      :: first_accepts older.
Proof. intros H1 H2. simpl. rewrite decide_True by auto. reflexivity. Qed.

Lemma first_accepts_cons_other (sub : Submission) (older : list Submission) :
  status sub ≠ "Accepted" ∨ Exists (accepted_for (problem_name sub)) older →
  first_accepts (sub :: older) = first_accepts older.
Proof.
  intros H. simpl. rewrite decide_False; [reflexivity|].
  intros [H1 H2]. destruct H; contradiction.
Qed.

Lemma update_team_stats_history (t : Team) (sub : Submission) :
  team_inv t → history_inv t → history_inv (update_team_stats t sub).
Proof.
  intros Ht [Hsolved Hpen Htimes Hfirst].
  pose proof (inv_first_history t Ht (problem_name sub)) as Hacc.
  rewrite <- Exists_rev in Hacc.
  destruct (update_team_stats_cases t sub) as [[Hst Hnone]|[[Hst Hsome]|Hst]].
  - assert (Hno : ¬ Exists (accepted_for (problem_name sub)) (rev (submissions t))).
    { intros H. apply Hacc in H. rewrite Hnone in H. destruct H; discriminate. }
    rewrite update_team_stats_first_ac by assumption.
    split; cbn [solved_problems penalty_time solve_times first_ac_time submissions];
      rewrite rev_unit, (first_accepts_cons_first _ _ Hst Hno).
    + rewrite Hsolved. simpl. lia.
    + rewrite Hpen, wrap_int_add_l, fmap_cons, sum_Z_cons, filter_rev_length,
        <- (inv_wrong_history t Ht).
      set (rest := sum_Z (charge <$> first_accepts (rev (submissions t)))).
      f_equal. unfold charge. simpl. lia.
    + rewrite sort_reversed_perm, <- Permutation_cons_append, fmap_cons.
      constructor. exact Htimes.
    + intros q v. rewrite lookup_insert. case_decide as Hq.
      * subst q. split.
        -- intros [= <-]. eexists. split; [left|]. auto.
        -- intros (fa & Hin & Hp & Hv). apply elem_of_cons in Hin as [->|Hin].
           ++ simpl in Hv. congruence.
           ++ exfalso. apply Hno. rewrite <- Hp.
              apply first_accepts_accepted. exact Hin.
      * rewrite Hfirst. split.
        -- intros (fa & Hin & Hp & Hv). exists fa. split; [right; exact Hin|auto].
        -- intros (fa & Hin & Hp & Hv). apply elem_of_cons in Hin as [->|Hin].
           ++ simpl in Hp. contradiction.
           ++ exists fa. auto.
  - rewrite update_team_stats_later_ac by assumption.
    split; cbn [solved_problems penalty_time solve_times first_ac_time submissions];
      rewrite rev_unit, first_accepts_cons_other by (right; apply Hacc; exact Hsome);
      assumption.
  - rewrite update_team_stats_rejected by assumption.
    split; cbn [solved_problems penalty_time solve_times first_ac_time submissions];
      rewrite rev_unit, first_accepts_cons_other by (left; exact Hst);
      assumption.
Qed.

Lemma history_inv_new (n : string) : history_inv (Team_new n).
Proof.
  split; simpl; try reflexivity.
  intros p v. rewrite lookup_empty. split; [discriminate|].
  intros (fa & Hin & _). inversion Hin.
Qed.

Lemma reachable_history (s : ICPCSystem) (k : string) (t : Team) :
  reachable s → teams s !! k = Some t → team_inv t ∧ history_inv t.
Proof.
  intros Hreach.
  apply (reachable_team_ind (λ _ t, team_inv t ∧ history_inv t)); auto.
  - intros n. split; [apply team_inv_new|apply history_inv_new].
  - intros n t0 p st tm [H1 H2].
    split; [apply update_team_stats_inv|apply update_team_stats_history]; assumption.
Qed.

(** In every reachable state the statistics of a team are determined by
    its history: the solved count is the number of first acceptances,
    the penalty is the sum over them of 20 times the rejections of the
    problem before the acceptance plus the acceptance time, brought into
    the range of [int] modulo [2^32] (so it is that sum whenever the sum
    lies in the range), the solve-time vector holds exactly their times,
    and [first_ac_time] maps exactly their problems to their times.
    Submissions after the first acceptance of a problem contribute
    nothing. *)
Theorem statistics_from_history (s : ICPCSystem) (k : string) (t : Team) :
  reachable s → teams s !! k = Some t →
  solved_problems t = Z.of_nat (length (first_accepts (rev (submissions t)))) ∧
  penalty_time t =
    wrap_int (sum_Z (charge <$> first_accepts (rev (submissions t)))) ∧
  (INT_MIN ≤ sum_Z (charge <$> first_accepts (rev (submissions t))) ≤ INT_MAX →
   penalty_time t = sum_Z (charge <$> first_accepts (rev (submissions t)))) ∧
  Permutation (solve_times t)
    ((λ fa, time (fst fa)) <$> first_accepts (rev (submissions t))) ∧
  (∀ p v, first_ac_time t !! p = Some v ↔
          ∃ fa, fa ∈ first_accepts (rev (submissions t)) ∧
                problem_name (fst fa) = p ∧ time (fst fa) = v).
Proof.
  intros Hreach Hk.
  destruct (reachable_history s k t Hreach Hk) as [_ [H1 H2 H3 H4]].
  split; [exact H1|]. split; [exact H2|].
  split; [intros Hr; rewrite H2; apply wrap_int_id, Hr|]. auto.
Qed.

Lemma statistics_from_history_witness :
  first_accepts (rev (submissions (teams_at (teams example_state) "B"))) =
    [(Build_Submission "B" "q" "Accepted" 40, 0);
     (Build_Submission "B" "p" "Accepted" 10, 0)] ∧
  penalty_time (teams_at (teams example_state) "B") = 50.
Proof.
  split; [vm_compute; reflexivity|].
  destruct (statistics_from_history example_state "B"
              (teams_at (teams example_state) "B")
              example_state_reachable eq_refl) as (_ & _ & Hpen & _).
  rewrite Hpen; vm_compute; [reflexivity|split; discriminate].
Defined.

(** ** The global log *)

Lemma log_of_app (k : string) (l1 l2 : list Submission) :
  log_of k (l1 ++ l2) = log_of k l1 ++ log_of k l2.
Proof. apply filter_app. Qed.

Lemma log_of_absent (k : string) (log : list Submission) :
  Forall (λ sub, team_name sub ≠ k) log → log_of k log = [].
Proof.
  unfold log_of. induction 1 as [|x l Hx _ IH]; [reflexivity|].
  rewrite filter_cons_False by (intros E; apply Hx, E). exact IH.
Qed.

Lemma reachable_log (s : ICPCSystem) :
  reachable s →
  (∀ k t, teams s !! k = Some t → submissions t = log_of k (all_submissions s)) ∧
  Forall (λ sub, is_Some (teams s !! team_name sub)) (all_submissions s).
Proof.
  induction 1 as [|s c Hreach [IHt IHl]].
  - split; [|constructor]. intros k t. simpl. rewrite lookup_empty. discriminate.
  - pose proof (reachable_inv s Hreach) as Hs.
    assert (Hsame : all_submissions (fst (dispatch s c)) = all_submissions s →
              (∀ k t', teams (fst (dispatch s c)) !! k = Some t' →
                 teams s !! k = Some t' ∨ (teams s !! k = None ∧ t' = Team_new k)) →
              (∀ k t, teams (fst (dispatch s c)) !! k = Some t →
                 submissions t = log_of k (all_submissions (fst (dispatch s c)))) ∧
              Forall (λ sub, is_Some (teams (fst (dispatch s c)) !! team_name sub))
                (all_submissions (fst (dispatch s c)))).
    { intros Hlog Hteams. rewrite Hlog. split.
      - intros k t' Hk. destruct (Hteams k t' Hk) as [H|[H ->]]; [auto|].
        simpl. symmetry. apply log_of_absent.
        eapply Forall_impl; [exact IHl|]. simpl. intros sub [t0 Ht0] E.
        congruence.
      - eapply Forall_impl; [exact IHl|]. simpl. intros sub [t0 Ht0].
        destruct (dispatch_team s c _ t0 Hs Ht0) as [H|(p & st & tm & _ & H)];
          rewrite H; eauto. }
    assert (Horigin : (∀ n p st tm, c ≠ SUBMIT n p st tm) →
              ∀ k t', teams (fst (dispatch s c)) !! k = Some t' →
                teams s !! k = Some t' ∨ (teams s !! k = None ∧ t' = Team_new k)).
    { intros Hc k t' Hk.
      destruct (dispatch_team_origin s c k t' Hs Hk)
        as [(t0 & Ht0 & [->|(p & st & tm & E & _)])|(Hn & _ & ->)]; auto.
      exfalso. eapply Hc, E. }
    destruct c as [d|n|n p st tm| | | |n|n p st|];
      try (apply Hsame; [|apply Horigin; discriminate]).
    + reflexivity.
    + cbn [dispatch]. unfold add_team. destruct (teams s !! n); reflexivity.
    + cbn [dispatch]. destruct (teams s !! n) as [t0|] eqn:E.
      * rewrite (submit_registered _ _ _ _ _ _ E). cbn [fst teams all_submissions].
        split.
        -- intros k t. rewrite lookup_insert, log_of_app. case_decide as Hk.
           ++ subst k. intros [= <-].
              rewrite update_team_stats_submissions, (IHt n t0 E).
              f_equal. unfold log_of. rewrite filter_cons_True by reflexivity.
              reflexivity.
           ++ intros Ht. rewrite (IHt k t Ht).
              unfold log_of at 3. rewrite filter_cons_False by (simpl; congruence).
              rewrite filter_nil, app_nil_r. reflexivity.
        -- apply Forall_app. split.
           ++ eapply Forall_impl; [exact IHl|]. simpl. intros sub Hsub.
              apply lookup_insert_is_Some.
              destruct (decide (n = team_name sub)); auto.
           ++ constructor; [|constructor]. simpl. rewrite lookup_insert_eq. eauto.
      * rewrite submit_unknown by assumption. cbn [fst]. auto.
    + reflexivity.
    + cbn [dispatch]. unfold freeze. destruct (is_frozen s); reflexivity.
    + cbn [dispatch]. destruct (is_frozen s) eqn:Hfr.
      * rewrite scroll_frozen by assumption. reflexivity.
      * rewrite scroll_not_frozen by assumption. reflexivity.
    + cbn [dispatch]. unfold query_ranking. destruct (teams s !! n); reflexivity.
    + cbn [dispatch]. unfold query_submission. destruct (teams s !! n); reflexivity.
    + reflexivity.
Qed.

(** In every reachable state the history of each registered team is the
    global log restricted to the submissions that carry the team's name,
    in the same order, and every submission of the log names a
    registered team: a rejected SUBMIT leaves no trace. *)
Theorem log_and_histories (s : ICPCSystem) :
  reachable s →
  (∀ k t, teams s !! k = Some t → submissions t = log_of k (all_submissions s)) ∧
  (∀ sub, sub ∈ all_submissions s → is_Some (teams s !! team_name sub)).
Proof.
  intros Hreach. destruct (reachable_log s Hreach) as [H1 H2].
  split; [exact H1|]. rewrite Forall_forall in H2. exact H2.
Qed.

Lemma log_and_histories_witness :
  submissions (teams_at (teams example_state) "B") =
    log_of "B" (all_submissions example_state) ∧
  length (all_submissions example_state) = 3%nat.
Proof.
  destruct (log_and_histories example_state example_state_reachable) as [H _].
  split; [apply H; reflexivity|reflexivity].
Defined.

(** ** FLUSH *)

Lemma update_scoreboard_eq (s : ICPCSystem) :
  system_inv s →
  update_scoreboard s =
    {| duration_time := duration_time s;
       is_frozen := is_frozen s;
       teams := teams s;
       team_order := std_sort (compare_teams (teams s)) (team_order s);
       all_submissions := all_submissions s |}.
Proof.
  intros Hs. pose proof (update_scoreboard_teams s Hs) as Ht.
  unfold update_scoreboard in *. cbn [teams] in Ht. rewrite Ht. reflexivity.
Qed.

Lemma std_sort_sorted_id (s : ICPCSystem) (l : list string) :
  system_inv s →
  StronglySorted (λ a b, compare_teams (teams s) a b = true) l →
  std_sort (compare_teams (teams s)) l = l.
Proof.
  intros Hs Hsorted. symmetry.
  apply (strictly_sorted_unique (compare_teams (teams s)) (λ _, True)).
  - intros a b _ _. apply compare_teams_asym.
  - apply Forall_forall. auto.
  - exact Hsorted.
  - assert (Hnd : NoDup l).
    { clear Hs. induction Hsorted as [|a l Hsorted IH Ha]; constructor; auto.
      intros Hin. rewrite Forall_forall in Ha. specialize (Ha a Hin).
      rewrite compare_teams_irrefl in Ha. discriminate. }
    apply (std_sort_strictly_sorted (compare_teams (teams s)) (λ _, True)); auto.
    + intros a b _ _. apply compare_teams_asym.
    + intros a b c _ _ _. apply compare_teams_trans; apply teams_at_inv, Hs.
    + intros a b _ _ Hne. rewrite (compare_teams_flip (teams s) a b Hne).
      destruct (compare_teams (teams s) a b); auto.
    + apply Forall_forall. auto.
  - symmetry. apply std_sort_perm.
Qed.

(** FLUSH in a reachable state keeps the flag, the teams and the log,
    and replaces the visible order by the one arrangement of it in which
    every team is before all later ones under the comparator; it writes
    its one message. *)
Theorem flush_scoreboard_spec (s : ICPCSystem) :
  reachable s →
  ∃ order',
    flush_scoreboard s =
      ({| duration_time := duration_time s;
          is_frozen := is_frozen s;
          teams := teams s;
          team_order := order';
          all_submissions := all_submissions s |},
       [Text "[Info]Flush scoreboard.\n"]) ∧
    Permutation order' (team_order s) ∧
    StronglySorted (λ a b, compare_teams (teams s) a b = true) order' ∧
    (∀ l, Permutation l (team_order s) →
          StronglySorted (λ a b, compare_teams (teams s) a b = true) l →
          l = order').
Proof.
  intros Hreach. pose proof (reachable_inv s Hreach) as Hs.
  exists (std_sort (compare_teams (teams s)) (team_order s)).
  split; [unfold flush_scoreboard; rewrite update_scoreboard_eq by assumption;
          reflexivity|].
  split; [apply std_sort_perm|].
  split; [apply compare_teams_sorts, Hs|].
  intros l. apply compare_teams_sort_unique, Hs.
Qed.

Lemma flush_scoreboard_spec_witness :
  team_order example_state = ["A"; "B"] ∧
  team_order (fst (flush_scoreboard example_state)) = ["B"; "A"].
Proof.
  destruct (flush_scoreboard_spec example_state example_state_reachable)
    as (order' & Hflush & _ & _ & Huniq).
  split; [reflexivity|]. rewrite Hflush. cbn [fst team_order].
  symmetry. apply Huniq; [apply perm_swap|].
  repeat constructor; vm_compute; reflexivity.
Defined.

(** A second FLUSH changes nothing, and neither does a FLUSH after a
    SCROLL that succeeded: the order is already sorted and no statistics
    have changed in between. *)
Theorem flush_idempotent (s : ICPCSystem) :
  reachable s →
  fst (flush_scoreboard (fst (flush_scoreboard s))) = fst (flush_scoreboard s) ∧
  (is_frozen s = true →
     fst (flush_scoreboard (fst (scroll s))) = fst (scroll s)).
Proof.
  intros Hreach. pose proof (reachable_inv s Hreach) as Hs.
  pose proof (compare_teams_sorts s Hs) as Hsorted.
  split.
  - unfold flush_scoreboard. cbn [fst].
    rewrite (update_scoreboard_eq s Hs).
    rewrite update_scoreboard_eq.
    + cbn [teams team_order duration_time is_frozen all_submissions].
      rewrite (std_sort_sorted_id s _ Hs Hsorted). reflexivity.
    + rewrite <- (update_scoreboard_eq s Hs). apply update_scoreboard_inv, Hs.
  - intros Hfr. unfold flush_scoreboard. cbn [fst].
    pose proof (scroll_inv s Hs) as Hs'.
    rewrite (scroll_frozen s Hs Hfr) in *. cbn [fst] in *.
    rewrite update_scoreboard_eq by exact Hs'.
    cbn [teams team_order duration_time is_frozen all_submissions].
    rewrite (std_sort_sorted_id s _ Hs Hsorted). reflexivity.
Qed.

Lemma flush_idempotent_witness :
  fst (flush_scoreboard (fst (scroll example_frozen))) = fst (scroll example_frozen).
Proof.
  destruct (flush_idempotent example_frozen example_frozen_reachable) as [_ H].
  apply H. reflexivity.
Defined.

(** FREEZE followed by SCROLL, on a scoreboard that is not frozen, ends
    in the state that a FLUSH would have produced. *)
Theorem freeze_scroll_is_flush (s : ICPCSystem) :
  reachable s → is_frozen s = false →
  fst (scroll (fst (freeze s))) = fst (flush_scoreboard s).
Proof.
  intros Hreach Hfr. pose proof (reachable_inv s Hreach) as Hs.
  assert (Hs' : system_inv (fst (freeze s))) by (apply (dispatch_inv s FREEZE), Hs).
  unfold flush_scoreboard. cbn [fst]. rewrite (update_scoreboard_eq s Hs).
  unfold freeze in *. rewrite Hfr in *. cbn [fst] in *.
  rewrite scroll_frozen by (assumption || reflexivity).
  cbn [fst teams team_order duration_time is_frozen all_submissions].
  reflexivity.
Qed.

Lemma freeze_scroll_is_flush_witness :
  fst (scroll (fst (freeze example_state))) = fst (flush_scoreboard example_state).
Proof.
  apply (freeze_scroll_is_flush example_state example_state_reachable).
  reflexivity.
Defined.

(** ** The freeze flag *)

(** After FREEZE the flag is set and after SCROLL it is clear, whether
    the command succeeded or was rejected; no other command touches the
    flag.  FREEZE is rejected exactly when the flag was set, SCROLL
    exactly when it was clear. *)
Theorem freeze_flag_frame (s : ICPCSystem) (c : command) :
  is_frozen (fst (dispatch s c)) =
    match c with
    | FREEZE => true
    | SCROLL => false
    | _ => is_frozen s
    end ∧
  (snd (freeze s) = [Text "[Info]Freeze scoreboard.\n"] ↔ is_frozen s = false) ∧
  (hd_error (snd (scroll s)) = Some (Text "[Info]Scroll scoreboard.\n")
   ↔ is_frozen s = true).
Proof.
  split; [|split].
  - destruct c as [d|n|n p st tm| | | |n|n p st|]; cbn [dispatch].
    + reflexivity.
    + unfold add_team. destruct (teams s !! n); reflexivity.
    + unfold submit. destruct (teams s !! n); reflexivity.
    + reflexivity.
    + unfold freeze. destruct (is_frozen s) eqn:E; [exact E|reflexivity].
    + unfold scroll. destruct (is_frozen s) eqn:E; cbn [negb]; [|exact E].
      destruct (print_scoreboard _ _ _). reflexivity.
    + unfold query_ranking. destruct (teams s !! n); reflexivity.
    + unfold query_submission. destruct (teams s !! n); reflexivity.
    + reflexivity.
  - unfold freeze. destruct (is_frozen s); simpl; split; congruence.
  - unfold scroll. destruct (is_frozen s); cbn [negb].
    + destruct (print_scoreboard _ _ _). simpl. split; congruence.
    + simpl. split; congruence.
Qed.

(** ** Ranks after FLUSH *)

Lemma StronglySorted_lookup {A} (R : relation A) (l : list A) (i j : nat) (a b : A) :
  StronglySorted R l → l !! i = Some a → l !! j = Some b → (i < j)%nat → R a b.
Proof.
  intros Hs. revert i j. induction Hs as [|x l Hs IH Hx]; intros i j Hi Hj Hlt.
  - rewrite lookup_nil in Hi. discriminate.
  - destruct j as [|j]; [lia|]. simpl in Hj. destruct i as [|i]; simpl in Hi.
    + injection Hi as <-. rewrite Forall_forall in Hx. apply Hx.
      apply list_elem_of_lookup. eauto.
    + apply (IH i j); auto. lia.
Qed.

(** After FLUSH, QUERY_RANKING orders any two registered teams as the
    comparator does on their current statistics; in particular the team
    with more solved problems gets the smaller rank, and with equal
    solved counts the team with the smaller penalty does. *)
Theorem ranks_after_flush (s : ICPCSystem) (a b : string) :
  reachable s → is_Some (teams s !! a) → is_Some (teams s !! b) → a ≠ b →
  ∃ ra rb,
    snd (query_ranking (fst (flush_scoreboard s)) a) =
      frozen_warning s ++ [RankingLine a ra] ∧
    snd (query_ranking (fst (flush_scoreboard s)) b) =
      frozen_warning s ++ [RankingLine b rb] ∧
    (ra < rb ↔ compare_teams (teams s) a b = true) ∧
    (solved_problems (teams_at (teams s) b) < solved_problems (teams_at (teams s) a) →
     ra < rb) ∧
    (solved_problems (teams_at (teams s) a) = solved_problems (teams_at (teams s) b) →
     penalty_time (teams_at (teams s) a) < penalty_time (teams_at (teams s) b) →
     ra < rb).
Proof.
  intros Hreach Ha Hb Hne. pose proof (reachable_inv s Hreach) as Hs.
  pose proof (update_scoreboard_inv s Hs) as Hs'.
  pose proof (compare_teams_sorts s Hs) as Hsorted.
  unfold flush_scoreboard. cbn [fst].
  rewrite (update_scoreboard_eq s Hs) in *.
  set (s' := {| duration_time := duration_time s; is_frozen := is_frozen s;
                teams := teams s;
                team_order := std_sort (compare_teams (teams s)) (team_order s);
                all_submissions := all_submissions s |}) in *.
  destruct (query_ranking_registered s' a Hs' Ha) as (i & Hi & Hqa).
  destruct (query_ranking_registered s' b Hs' Hb) as (j & Hj & Hqb).
  exists (Z.of_nat i + 1), (Z.of_nat j + 1).
  rewrite Hqa, Hqb. cbn [snd].
  split; [reflexivity|]. split; [reflexivity|].
  assert (Hiff : Z.of_nat i + 1 < Z.of_nat j + 1 ↔ compare_teams (teams s) a b = true).
  { split.
    - intros Hlt. apply (StronglySorted_lookup _ _ i j a b Hsorted Hi Hj). lia.
    - intros Hab. destruct (Nat.lt_trichotomy i j) as [Hlt|[->|Hgt]]; [lia| |].
      + simpl in Hi, Hj. congruence.
      + pose proof (StronglySorted_lookup _ _ j i b a Hsorted Hj Hi Hgt) as Hba.
        cbn beta in Hba.
        rewrite (compare_teams_asym _ _ _ Hab) in Hba. discriminate. }
  split; [exact Hiff|]. split.
  - intros Hsolved. apply Hiff. unfold compare_teams.
    destruct (Z.eqb_spec (solved_problems (teams_at (teams s) a))
                         (solved_problems (teams_at (teams s) b))); [lia|].
    simpl. rewrite Z.gtb_ltb. apply Z.ltb_lt. exact Hsolved.
  - intros Hsolved Hpen. apply Hiff. unfold compare_teams.
    rewrite Hsolved, Z.eqb_refl. simpl.
    destruct (Z.eqb_spec (penalty_time (teams_at (teams s) a))
                         (penalty_time (teams_at (teams s) b))); [lia|].
    simpl. apply Z.ltb_lt. exact Hpen.
Qed.

Lemma ranks_after_flush_witness :
  snd (query_ranking (fst (flush_scoreboard example_state)) "B") =
    [RankingLine "B" 1] ∧
  snd (query_ranking (fst (flush_scoreboard example_state)) "A") =
    [RankingLine "A" 2].
Proof.
  destruct (ranks_after_flush example_state "B" "A" example_state_reachable)
    as (ra & rb & HB & HA & _ & Hsolved & _);
    [eexists; vm_compute; reflexivity|eexists; vm_compute; reflexivity
    |discriminate|].
  split; vm_compute; reflexivity.
Defined.

(** ** A new team *)

(** A team that has just been registered is last in the visible order:
    QUERY_RANKING gives it the number of teams as its rank, whatever its
    name and whatever the statistics of the others, until the next FLUSH
    or SCROLL.  The ranks written for the other teams are as before. *)
Theorem new_team_is_last (s : ICPCSystem) (n : string) :
  reachable s → teams s !! n = None →
  snd (query_ranking (fst (add_team s n)) n) =
    frozen_warning s ++ [RankingLine n (Z.of_nat (size (teams s)) + 1)] ∧
  (∀ k, is_Some (teams s !! k) →
     snd (query_ranking (fst (add_team s n)) k) = snd (query_ranking s k)).
Proof.
  intros Hreach Hn. pose proof (reachable_inv s Hreach) as Hs.
  rewrite (add_team_new s n Hn). cbn [fst].
  unfold query_ranking. cbn [teams team_order is_frozen]. split.
  - rewrite lookup_insert_eq.
    assert (Hnotin : n ∉ team_order s).
    { intros Hin. apply (inv_order_registered s Hs) in Hin.
      rewrite Hn in Hin. destruct Hin; discriminate. }
    assert (Hfind : ∀ l r, n ∉ l →
              find_ranking (l ++ [n]) n r = [RankingLine n (r + Z.of_nat (length l))]).
    { induction l as [|x l IH]; intros r Hl; simpl.
      - rewrite String.eqb_refl, Z.add_0_r. reflexivity.
      - apply not_elem_of_cons in Hl as [Hx Hl].
        destruct (String.eqb_spec x n); [congruence|].
        rewrite IH by assumption. do 2 f_equal. lia. }
    rewrite (Hfind _ 1 Hnotin), (order_length s Hs). unfold frozen_warning.
    cbn [snd]. do 3 f_equal. lia.
  - intros k [t Ht].
    assert (Hkn : n ≠ k) by congruence.
    rewrite lookup_insert_ne by assumption. rewrite Ht. cbn [snd]. f_equal.
    assert (Hin : k ∈ team_order s) by (apply (inv_order_registered s Hs); eauto).
    generalize 1. induction (team_order s) as [|x l IH]; intros r.
    + inversion Hin.
    + simpl. destruct (String.eqb_spec x k); [reflexivity|].
      apply IH. apply elem_of_cons in Hin as [->|Hin]; [contradiction|exact Hin].
Qed.

Lemma new_team_is_last_witness :
  snd (query_ranking (fst (add_team example_state "0")) "0") =
    [RankingLine "0" 3].
Proof.
  destruct (new_team_is_last example_state "0" example_state_reachable) as [H _];
    [vm_compute; reflexivity|].
  rewrite H. vm_compute. reflexivity.
Defined.

(** ** SUBMIT and the queries *)

(** The submission that was just accepted into the history is what
    QUERY_SUBMISSION returns for its team when each filter is "ALL" or
    the submission's own problem or status. *)
Theorem submit_then_query
    (s : ICPCSystem) (n p st : string) (tm : Z) (pf sf : string) :
  is_Some (teams s !! n) →
  pf = "ALL" ∨ pf = p → sf = "ALL" ∨ sf = st →
  snd (query_submission (fst (submit s n p st tm)) n pf sf) =
    [Text "[Info]Complete query submission.\n";
     SubmissionLine (Build_Submission n p st tm)].
Proof.
  intros [t Ht] Hpf Hsf.
  rewrite (submit_registered _ _ _ _ _ _ Ht). cbn [fst].
  unfold query_submission. cbn [teams]. rewrite lookup_insert_eq. cbn [snd].
  rewrite update_team_stats_submissions, rev_unit. cbn [find_submission].
  assert (Hm : submission_matches pf sf (Build_Submission n p st tm) = true).
  { apply submission_matches_spec. simpl.
    split; [destruct Hpf|destruct Hsf]; auto. }
  rewrite Hm. reflexivity.
Qed.

Lemma submit_then_query_witness :
  snd (query_submission (fst (submit example_state "A" "r" "Time_Limit_Exceed" 70))
         "A" "r" "ALL") =
    [Text "[Info]Complete query submission.\n";
     SubmissionLine (Build_Submission "A" "r" "Time_Limit_Exceed" 70)].
Proof.
  apply submit_then_query; [eexists; vm_compute; reflexivity|right|left];
    reflexivity.
Defined.

(** The record of a registered team stays in the table and is left as it
    is by every command except a SUBMIT for that same team: no command
    removes a team, and a submission changes no other team. *)
Theorem other_teams_untouched
    (s : ICPCSystem) (c : command) (k : string) (t : Team) :
  reachable s → teams s !! k = Some t →
  (∀ p st tm, c ≠ SUBMIT k p st tm) →
  teams (fst (dispatch s c)) !! k = Some t.
Proof.
  intros Hreach Hk Hc.
  destruct (dispatch_team s c k t (reachable_inv s Hreach) Hk)
    as [H|(p & st & tm & E & _)]; [exact H|].
  exfalso. eapply Hc, E.
Qed.

Lemma other_teams_untouched_witness :
  teams (fst (dispatch example_state (SUBMIT "A" "p" "Accepted" 30))) !! "B" =
    teams example_state !! "B".
Proof.
  rewrite (other_teams_untouched example_state (SUBMIT "A" "p" "Accepted" 30) "B"
             (teams_at (teams example_state) "B") example_state_reachable eq_refl);
    [reflexivity|discriminate].
Defined.

(** ** Reading words and numbers from a line *)

Lemma skip_space_gap (g r : string) :
  all_space g → skip_space (g +:+ r) = skip_space r.
Proof.
  induction g as [|c g IH]; simpl; [reflexivity|].
  intros [Hc Hg]. rewrite Hc. apply IH, Hg.
Qed.

Lemma skip_space_all (g : string) : all_space g → skip_space g = EmptyString.
Proof.
  induction g as [|c g IH]; simpl; [reflexivity|].
  intros [Hc Hg]. rewrite Hc. apply IH, Hg.
Qed.

Lemma read_word_app (w r : string) :
  no_space w → starts_blank r → read_word (w +:+ r) = (w, r).
Proof.
  intros Hw Hr. induction w as [|c w IH]; simpl.
  - destruct r as [|c r]; [reflexivity|]. simpl in *. rewrite Hr. reflexivity.
  - destruct Hw as [Hc Hw]. rewrite Hc, (IH Hw). reflexivity.
Qed.

Lemma extract_string_word (g w r v : string) :
  all_space g → word w → starts_blank r →
  extract_string {| buffer := g +:+ w +:+ r; failbit := false |} v =
    ({| buffer := r; failbit := false |}, w).
Proof.
  intros Hg [Hne Hw] Hr. unfold extract_string. cbn [failbit buffer].
  rewrite (skip_space_gap g _ Hg).
  destruct w as [|c w]; [contradiction|].
  assert (Hskip : skip_space (String c w +:+ r) = String c (w +:+ r))
    by (simpl; destruct Hw as [-> _]; reflexivity).
  rewrite Hskip. cbv iota.
  change (String c (w +:+ r)) with (String c w +:+ r).
  rewrite (read_word_app _ _ Hw Hr). reflexivity.
Qed.

Lemma extract_string_end (g v : string) :
  all_space g →
  extract_string {| buffer := g; failbit := false |} v =
    ({| buffer := EmptyString; failbit := true |}, v).
Proof.
  intros Hg. unfold extract_string. cbn [failbit buffer].
  rewrite (skip_space_all g Hg). reflexivity.
Qed.


Lemma starts_blank_gap (g r : string) : gap g → starts_blank (g +:+ r).
Proof. intros [Hne Hg]. destruct g; [contradiction|]. simpl. apply Hg. Qed.

Lemma gap_all_space (g : string) : gap g → all_space g.
Proof. intros [_ H]. exact H. Qed.

Lemma uint_value_acc (d : Decimal.uint) (acc : positive) :
  uint_value d (Z.pos acc) = Z.pos (Pos.of_uint_acc d acc).
Proof.
  revert acc. induction d; intros acc; simpl; try reflexivity;
    rewrite <- IHd; f_equal; lia.
Qed.

Lemma uint_value_of_uint (d : Decimal.uint) :
  uint_value d 0 = Z.of_N (Pos.of_uint d).
Proof.
  induction d; simpl; try reflexivity; try exact IHd;
    rewrite <- uint_value_acc; reflexivity.
Qed.

Lemma no_digit_space (c : ascii) : is_space c = true → digit_of c = None.
Proof.
  unfold is_space, digit_of. intros H.
  destruct (48 <=? Z.of_N (N_of_ascii c)) eqn:E1; [|reflexivity].
  destruct (Z.of_N (N_of_ascii c) <=? 57) eqn:E2; [|reflexivity].
  exfalso. apply Z.leb_le in E1, E2.
  apply orb_true_iff in H as [H|H].
  - apply N.eqb_eq in H. lia.
  - apply andb_true_iff in H as [_ H]. apply N.leb_le in H. lia.
Qed.

Lemma read_digits_uint (d : Decimal.uint) (acc : Z) (r : string) :
  starts_blank r →
  read_digits (NilEmpty.string_of_uint d +:+ r) acc = (uint_value d acc, r).
Proof.
  intros Hr. revert acc.
  induction d; intros acc; simpl; try apply IHd.
  destruct r as [|c r]; [reflexivity|]. simpl in *.
  rewrite (no_digit_space c Hr). reflexivity.
Qed.

Lemma uint_first_digit (d : Decimal.uint) :
  d ≠ Decimal.Nil →
  ∃ c s k, NilEmpty.string_of_uint d = String c s ∧ digit_of c = Some k ∧
           is_space c = false ∧ Ascii.eqb c "-" = false ∧ Ascii.eqb c "+" = false.
Proof.
  destruct d; [contradiction|..]; intros _; simpl;
    eexists _, _, _; (split; [reflexivity|]); vm_compute; auto.
Qed.

Lemma pos_to_uint_not_nil (p : positive) : Pos.to_uint p ≠ Decimal.Nil.
Proof.
  intros H. pose proof (DecimalPos.Unsigned.of_to p) as E.
  rewrite H in E. discriminate.
Qed.

Lemma string_of_Z_shape (z : Z) :
  ∃ negative d,
    d ≠ Decimal.Nil ∧
    string_of_Z z =
      (if negative : bool then String "-" (NilEmpty.string_of_uint d)
       else NilEmpty.string_of_uint d) ∧
    z = (if negative then - uint_value d 0 else uint_value d 0).
Proof.
  unfold string_of_Z. destruct z as [|p|p]; simpl.
  - exists false, (Decimal.D0 Decimal.Nil). repeat split. discriminate.
  - exists false, (Pos.to_uint p).
    pose proof (pos_to_uint_not_nil p) as Hn.
    split; [exact Hn|]. split.
    + destruct (Pos.to_uint p); [contradiction|reflexivity..].
    + rewrite uint_value_of_uint, DecimalPos.Unsigned.of_to. reflexivity.
  - exists true, (Pos.to_uint p).
    pose proof (pos_to_uint_not_nil p) as Hn.
    split; [exact Hn|]. split.
    + destruct (Pos.to_uint p); [contradiction|reflexivity..].
    + rewrite uint_value_of_uint, DecimalPos.Unsigned.of_to. reflexivity.
Qed.

Lemma no_space_uint (d : Decimal.uint) : no_space (NilEmpty.string_of_uint d).
Proof. induction d; simpl; auto. Qed.

Lemma string_of_Z_word (z : Z) : word (string_of_Z z).
Proof.
  destruct (string_of_Z_shape z) as (negative & d & Hd & -> & _).
  destruct (uint_first_digit d Hd) as (c & s & k & E & _).
  pose proof (no_space_uint d) as Hns.
  destruct negative; split; simpl; auto; try discriminate.
  rewrite E. discriminate.
Qed.

Lemma clamp_int_id (z : Z) : INT_MIN ≤ z ≤ INT_MAX → clamp_int z = z.
Proof. unfold clamp_int. lia. Qed.

Lemma clamp_int_range (z : Z) : INT_MIN ≤ clamp_int z ≤ INT_MAX.
Proof. unfold clamp_int, INT_MIN, INT_MAX. lia. Qed.

Lemma append_cons (c : ascii) (s r : string) :
  String c s +:+ r = String c (s +:+ r).
Proof. reflexivity. Qed.

(** Reading back a number that was written in decimal. *)
Lemma extract_int_string_of_Z (g r : string) (z : Z) (v : option Z) :
  all_space g → starts_blank r → INT_MIN ≤ z ≤ INT_MAX →
  extract_int {| buffer := g +:+ string_of_Z z +:+ r; failbit := false |} v =
    ({| buffer := r; failbit := false |}, Some z).
Proof.
  intros Hg Hr Hz. unfold extract_int. cbn [failbit buffer].
  rewrite (skip_space_gap g _ Hg).
  destruct (string_of_Z_shape z) as (negative & d & Hd & -> & Hval).
  destruct (uint_first_digit d Hd) as (c & s & k & E & Hk & Hsp & Hm & Hp).
  pose proof (read_digits_uint d 0 r Hr) as Hread.
  destruct negative.
  - rewrite E in *. rewrite !append_cons in *. cbn [skip_space].
    change (is_space "-") with false. cbv iota.
    change (Ascii.eqb "-" "-") with true. cbv iota.
    rewrite Hk, Hread.
    rewrite <- Hval, (clamp_int_id z Hz), Z.eqb_refl. reflexivity.
  - rewrite E in *. rewrite !append_cons in *. cbn [skip_space].
    rewrite Hsp, Hm, Hp, Hk, Hread.
    rewrite <- Hval, (clamp_int_id z Hz), Z.eqb_refl. reflexivity.
Qed.

Lemma extract_int_range (iss iss' : istream) (v : Z) :
  extract_int iss None = (iss', Some v) → INT_MIN ≤ v ≤ INT_MAX.
Proof.
  unfold extract_int. destruct (failbit iss); [discriminate|].
  destruct (skip_space (buffer iss)) as [|c rest]; [discriminate|].
  destruct (if Ascii.eqb c "-" then (true, rest)
            else if Ascii.eqb c "+" then (false, rest)
            else (false, String c rest)) as [negative body].
  destruct body as [|d body'].
  - intros [= _ <-]. unfold INT_MIN, INT_MAX. lia.
  - destruct (digit_of d).
    + destruct (read_digits (String d body') 0) as [x r].
      intros [= _ <-]. apply clamp_int_range.
    + intros [= _ <-]. unfold INT_MIN, INT_MAX. lia.
Qed.

(** ** The conditions of QUERY_SUBMISSION *)

Lemma find_char_bound (c : ascii) (s : string) (i : nat) :
  find_char c s = Some i → (i < String.length s)%nat.
Proof.
  revert i. induction s as [|x s IH]; intros i; simpl; [discriminate|].
  destruct (Ascii.eqb x c).
  - intros [= <-]. lia.
  - destruct (find_char c s) as [j|]; [|discriminate].
    intros [= <-]. specialize (IH j eq_refl). lia.
Qed.

Lemma after_equals_total (cond : string) : is_Some (after_equals cond).
Proof.
  unfold after_equals, substr.
  destruct (find_char "=" cond) as [i|] eqn:E.
  - apply find_char_bound in E.
    destruct (Nat.leb_spec (S i) (String.length cond)); [eauto|lia].
  - simpl. eauto.
Qed.

Lemma after_equals_none (cond : string) :
  find_char "=" cond = None → after_equals cond = Some cond.
Proof. intros H. unfold after_equals. rewrite H. reflexivity. Qed.

Lemma after_equals_app (k v : string) :
  find_char "=" k = None → after_equals (k +:+ String "=" v) = Some v.
Proof.
  intros Hk. unfold after_equals, substr.
  assert (Hfind : find_char "=" (k +:+ String "=" v) = Some (String.length k)).
  { induction k as [|x k IH]; [reflexivity|].
    rewrite append_cons. simpl in *.
    destruct (Ascii.eqb x "="); [discriminate|].
    destruct (find_char "=" k); [discriminate|]. rewrite IH; reflexivity. }
  rewrite Hfind.
  assert (Hdrop : drop_chars (S (String.length k)) (k +:+ String "=" v) = v).
  { clear. induction k as [|x k IH]; [reflexivity|].
    rewrite append_cons. simpl in *. exact IH. }
  rewrite Hdrop.
  assert (Hlen : (S (String.length k) <= String.length (k +:+ String "=" v))%nat).
  { clear. induction k as [|x k IH]; [simpl; lia|].
    rewrite append_cons. simpl in *. lia. }
  apply Nat.leb_le in Hlen. rewrite Hlen. reflexivity.
Qed.

Lemma parse_line_not_throws (line : string) : parse_line line ≠ Throws.
Proof.
  unfold parse_line.
  repeat match goal with
         | |- context [let '(_, _) := extract_string ?i ?v in _] =>
             destruct (extract_string i v) as [? ?]
         | |- context [let '(_, _) := extract_int ?i ?v in _] =>
             destruct (extract_int i v) as [? [?|]]
         | |- context [if ?b then _ else _] => destruct b
         end; try discriminate.
  all: repeat match goal with
              | |- context [after_equals ?a] =>
                  destruct (after_equals_total a) as [? ->]
              end; discriminate.
Qed.

(** [cond.substr(cond.find("=") + 1)] never throws: the position is at
    most the size of the string.  It yields what follows the first "="
    of the condition, and the whole condition when there is no "=" in it
    (the position is then [npos + 1 = 0]).  Hence no line makes
    [main] throw. *)
Theorem after_equals_spec :
  (∀ cond, is_Some (after_equals cond)) ∧
  (∀ k v, find_char "=" k = None → after_equals (k +:+ String "=" v) = Some v) ∧
  (∀ cond, find_char "=" cond = None → after_equals cond = Some cond) ∧
  (∀ line, parse_line line ≠ Throws).
Proof.
  split; [apply after_equals_total|].
  split; [apply after_equals_app|].
  split; [apply after_equals_none|apply parse_line_not_throws].
Qed.

Lemma after_equals_spec_witness :
  after_equals "PROBLEM=A=B" = Some "A=B" ∧ after_equals "PROBLEM" = Some "PROBLEM".
Proof.
  destruct after_equals_spec as (_ & Happ & Hnone & _).
  split; [apply (Happ "PROBLEM" "A=B")|apply Hnone]; reflexivity.
Defined.

(** ** The lines that [main] understands *)

Lemma line_nonempty (g w r : string) :
  word w → String.eqb (g +:+ w +:+ r) "" = false.
Proof.
  intros [Hne _]. destruct g as [|c g]; [|reflexivity].
  destruct w as [|c w]; [contradiction|reflexivity].
Qed.

Lemma command_word_is_word (w : string) : w ∈ command_words → word w.
Proof.
  unfold command_words. rewrite !elem_of_cons, elem_of_nil.
  intros H. repeat destruct H as [->|H]; try contradiction;
    (split; [discriminate|vm_compute; tauto]).
Qed.

Lemma no_space_app (a b : string) : no_space a → no_space b → no_space (a +:+ b).
Proof.
  intros Ha Hb. induction a as [|c a IH]; [exact Hb|].
  rewrite append_cons. destruct Ha as [Hc Ha]. split; auto.
Qed.

(** One step of the proofs below: the next [iss >> word] reads the word
    that lies at the front of the buffer. *)
Ltac read_next_word :=
  rewrite extract_string_word
    by (auto using starts_blank_gap, gap_all_space, command_word_is_word);
  cbv beta iota zeta.

(** A SUBMIT line: the words after the command are read as team,
    problem and status, the fourth is skipped, and the decimal number
    after it is the time; any amount of white space may separate them. *)
Theorem parse_submit_line
    (g0 g1 g2 g3 g4 g5 t p st kw r : string) (tm : Z) :
  all_space g0 → gap g1 → gap g2 → gap g3 → gap g4 → gap g5 →
  word t → word p → word st → word kw → starts_blank r →
  INT_MIN ≤ tm ≤ INT_MAX →
  parse_line
    (g0 +:+ "SUBMIT" +:+ g1 +:+ t +:+ g2 +:+ p +:+ g3 +:+ st +:+ g4 +:+ kw
        +:+ g5 +:+ string_of_Z tm +:+ r) =
    Call (SUBMIT t p st tm).
Proof.
  intros H0 H1 H2 H3 H4 H5 Ht Hp Hst Hkw Hr Htm.
  assert (Hcmd : word "SUBMIT")
    by (apply command_word_is_word; unfold command_words;
        rewrite !elem_of_cons; auto).
  unfold parse_line. rewrite line_nonempty by assumption.
  read_next_word. simpl (String.eqb "SUBMIT" _). cbv iota.
  do 4 read_next_word.
  rewrite extract_int_string_of_Z by auto using gap_all_space.
  reflexivity.
Qed.

Lemma parse_submit_line_witness :
  parse_line ("SUBMIT  Team_1" +:+ String "009" "A Wrong_Answer AT 17") =
    Call (SUBMIT "Team_1" "A" "Wrong_Answer" 17).
Proof.
  apply (parse_submit_line "" "  " (String "009" "") " " " " " "
           "Team_1" "A" "Wrong_Answer" "AT" "" 17);
    repeat split; try discriminate; try reflexivity;
    unfold INT_MIN, INT_MAX; lia.
Defined.

(** A QUERY_SUBMISSION line: the first word after the command is the
    team; the third and the fifth are conditions, of which the part
    after the first "=" is the problem and the status. *)
Theorem parse_query_submission_line
    (g0 g1 g2 g3 g4 g5 t kw1 k1 p kw2 k2 st r : string) :
  all_space g0 → gap g1 → gap g2 → gap g3 → gap g4 → gap g5 →
  word t → word kw1 → word kw2 →
  no_space k1 → no_space p → no_space k2 → no_space st →
  find_char "=" k1 = None → find_char "=" k2 = None → starts_blank r →
  parse_line
    (g0 +:+ "QUERY_SUBMISSION" +:+ g1 +:+ t +:+ g2 +:+ kw1 +:+ g3
        +:+ (k1 +:+ String "=" p) +:+ g4 +:+ kw2 +:+ g5
        +:+ (k2 +:+ String "=" st) +:+ r) =
    Call (QUERY_SUBMISSION t p st).
Proof.
  intros H0 H1 H2 H3 H4 H5 Ht Hkw1 Hkw2 Hk1 Hp Hk2 Hst Hf1 Hf2 Hr.
  assert (Hcmd : word "QUERY_SUBMISSION")
    by (apply command_word_is_word; unfold command_words;
        rewrite !elem_of_cons; auto 10).
  assert (Hcond : ∀ k v, no_space k → no_space v → word (k +:+ String "=" v)).
  { intros k v Hk Hv. split.
    - destruct k; discriminate.
    - apply no_space_app; [exact Hk|]. split; [reflexivity|exact Hv]. }
  pose proof (Hcond k1 p Hk1 Hp) as Hc1.
  pose proof (Hcond k2 st Hk2 Hst) as Hc2.
  unfold parse_line. rewrite line_nonempty by assumption.
  read_next_word. simpl (String.eqb "QUERY_SUBMISSION" _). cbv iota.
  do 5 read_next_word.
  rewrite (after_equals_app k1 p Hf1), (after_equals_app k2 st Hf2).
  reflexivity.
Qed.

Lemma parse_query_submission_line_witness :
  parse_line "QUERY_SUBMISSION Team_1 WHERE PROBLEM=ALL AND STATUS=Accepted" =
    Call (QUERY_SUBMISSION "Team_1" "ALL" "Accepted").
Proof.
  apply (parse_query_submission_line "" " " " " " " " " " "
           "Team_1" "WHERE" "PROBLEM" "ALL" "AND" "STATUS" "Accepted" "");
    repeat split; try discriminate; reflexivity.
Defined.

Lemma extract_string_failed (b v : string) :
  extract_string {| buffer := b; failbit := true |} v =
    ({| buffer := b; failbit := true |}, v).
Proof. reflexivity. Qed.


Lemma starts_blank_all_space (g : string) : all_space g → starts_blank g.
Proof. destruct g; [reflexivity|]. intros [H _]. exact H. Qed.


Lemma parse_line_uninitialised (line : string) (call : Z → command) :
  parse_line line = Uninitialised call →
  call = START ∨ ∃ t p st, call = SUBMIT t p st.
Proof.
  unfold parse_line.
  repeat match goal with
         | |- context [let '(_, _) := extract_string ?i ?v in _] =>
             destruct (extract_string i v) as [? ?]
         | |- context [let '(_, _) := extract_int ?i ?v in _] =>
             destruct (extract_int i v) as [? [?|]]
         | |- context [match after_equals ?a with _ => _ end] =>
             destruct (after_equals a)
         | |- context [if ?b then _ else _] => destruct b
         end; try discriminate; intros [= <-]; eauto.
Qed.



(** ADD_TEAM, QUERY_RANKING and QUERY_SUBMISSION with nothing after the
    command are calls with the empty name: the strings are
    default-initialised and the failed extraction leaves them empty.  So
    ADD_TEAM alone registers a team whose name is empty. *)
Theorem missing_name_is_empty (g r : string) :
  all_space g → all_space r →
  parse_line (g +:+ "ADD_TEAM" +:+ r) = Call (ADD_TEAM "") ∧
  parse_line (g +:+ "QUERY_RANKING" +:+ r) = Call (QUERY_RANKING "") ∧
  parse_line (g +:+ "QUERY_SUBMISSION" +:+ r) = Call (QUERY_SUBMISSION "" "" "").
Proof.
  intros Hg Hr. pose proof (starts_blank_all_space r Hr) as Hb.
  assert (Hw : ∀ w, w ∈ command_words → word w) by apply command_word_is_word.
  unfold parse_line.
  rewrite !line_nonempty
    by (apply Hw; unfold command_words; rewrite !elem_of_cons; auto 10).
  rewrite !extract_string_word
    by (auto; apply Hw; unfold command_words; rewrite !elem_of_cons; auto 10).
  cbv beta iota zeta.
  simpl (String.eqb "ADD_TEAM" _). simpl (String.eqb "QUERY_RANKING" _).
  simpl (String.eqb "QUERY_SUBMISSION" _). cbv iota.
  rewrite !(extract_string_end r) by assumption. cbv beta iota zeta.
  rewrite !extract_string_failed. cbv beta iota zeta.
  repeat split.
Qed.

Lemma missing_name_is_empty_witness :
  parse_line "ADD_TEAM" = Call (ADD_TEAM "") ∧
  parse_line "QUERY_RANKING  " = Call (QUERY_RANKING "").
Proof.
  destruct (missing_name_is_empty "" "" I I) as (Hadd & _).
  destruct (missing_name_is_empty "" "  " I (conj eq_refl (conj eq_refl I)))
    as (_ & Hrank & _).
  split; [exact Hadd|exact Hrank].
Defined.

(** The team with the empty name is registered by the first bare
    ADD_TEAM and found by a bare QUERY_RANKING. *)
Example empty_name_scenario :
  option_map snd (main (λ _, 0) "ADD_TEAM
ADD_TEAM
QUERY_RANKING
END") =
    Some "[Info]Add successfully.\n[Error]Add failed: duplicated team name.\n[] NOW AT RANKING 1\n[Info]Competition ends.\n".
Proof. vm_compute. reflexivity. Qed.

(** Reading a decimal numeral of any size, and a word that is not a
    number. *)
Lemma extract_int_decimal (g r : string) (z : Z) (v : option Z) :
  all_space g → starts_blank r →
  extract_int {| buffer := g +:+ string_of_Z z +:+ r; failbit := false |} v =
    ({| buffer := r; failbit := negb (Z.eqb (clamp_int z) z) |},
     Some (clamp_int z)).
Proof.
  intros Hg Hr. unfold extract_int. cbn [failbit buffer].
  rewrite (skip_space_gap g _ Hg).
  destruct (string_of_Z_shape z) as (negative & d & Hd & -> & Hval).
  destruct (uint_first_digit d Hd) as (c & s & k & E & Hk & Hsp & Hm & Hp).
  pose proof (read_digits_uint d 0 r Hr) as Hread.
  destruct negative.
  - rewrite E in *. rewrite !append_cons in *. cbn [skip_space].
    change (is_space "-") with false. cbv iota.
    change (Ascii.eqb "-" "-") with true. cbv iota.
    rewrite Hk, Hread. rewrite <- Hval. reflexivity.
  - rewrite E in *. rewrite !append_cons in *. cbn [skip_space].
    rewrite Hsp, Hm, Hp, Hk, Hread. rewrite <- Hval. reflexivity.
Qed.

Lemma extract_int_not_number (g w r : string) (v : option Z) :
  all_space g → word w → starts_blank r → starts_number w = false →
  snd (extract_int {| buffer := g +:+ w +:+ r; failbit := false |} v) = Some 0.
Proof.
  intros Hg [Hne Hw] Hr Hnum. unfold extract_int. cbn [failbit buffer].
  rewrite (skip_space_gap g _ Hg).
  destruct w as [|c w]; [contradiction|]. destruct Hw as [Hc Hw].
  rewrite append_cons. cbn [skip_space]. rewrite Hc.
  unfold starts_number, is_digit in Hnum.
  destruct (Ascii.eqb c "-") eqn:Em; [|destruct (Ascii.eqb c "+") eqn:Ep];
    cbn [orb] in Hnum.
  - destruct w as [|d w].
    + change (EmptyString +:+ r) with r.
      destruct r as [|x r]; [reflexivity|]. simpl in Hr.
      rewrite (no_digit_space x Hr). reflexivity.
    + rewrite append_cons. destruct (digit_of d); [discriminate|reflexivity].
  - destruct w as [|d w].
    + change (EmptyString +:+ r) with r.
      destruct r as [|x r]; [reflexivity|]. simpl in Hr.
      rewrite (no_digit_space x Hr). reflexivity.
    + rewrite append_cons. destruct (digit_of d); [discriminate|reflexivity].
  - destruct (digit_of c); [discriminate|reflexivity].
Qed.

(** An [int] that [main] reads from a line and passes to [start] or
    [submit] always lies in the range of [int].  Where a SUBMIT line has a decimal numeral, the
    time is the number when it is in the range and otherwise the nearest
    bound, the largest [int] for a number above the range and the
    smallest for one below; where it has a word that does not begin with
    a digit, after at most one sign, the time is 0. *)
Theorem parsed_numbers_in_range
    (g0 g1 g2 g3 g4 g5 t p st kw r : string) :
  all_space g0 → gap g1 → gap g2 → gap g3 → gap g4 → gap g5 →
  word t → word p → word st → word kw → starts_blank r →
  (∀ line c, parse_line line = Call c → call_ints_in_range c) ∧
  (∀ z,
     parse_line
       (g0 +:+ "SUBMIT" +:+ g1 +:+ t +:+ g2 +:+ p +:+ g3 +:+ st +:+ g4 +:+ kw
           +:+ g5 +:+ string_of_Z z +:+ r) =
       Call (SUBMIT t p st (clamp_int z)) ∧
     (INT_MIN ≤ z ≤ INT_MAX → clamp_int z = z) ∧
     (INT_MAX < z → clamp_int z = INT_MAX) ∧
     (z < INT_MIN → clamp_int z = INT_MIN)) ∧
  (∀ w, word w → starts_number w = false →
     parse_line
       (g0 +:+ "SUBMIT" +:+ g1 +:+ t +:+ g2 +:+ p +:+ g3 +:+ st +:+ g4 +:+ kw
           +:+ g5 +:+ w +:+ r) =
       Call (SUBMIT t p st 0)).
Proof.
  intros H0 H1 H2 H3 H4 H5 Ht Hp Hst Hkw Hr.
  assert (Hcmd : word "SUBMIT")
    by (apply command_word_is_word; unfold command_words;
        rewrite !elem_of_cons; auto).
  split; [|split].
  - intros line c. unfold parse_line.
    repeat match goal with
           | |- context [let '(_, _) := extract_string ?i ?v in _] =>
               destruct (extract_string i v) as [? ?]
           | |- context [let '(_, _) := extract_int ?i ?v in _] =>
               destruct (extract_int i v) as [? [?|]] eqn:?
           | |- context [match after_equals ?a with _ => _ end] =>
               destruct (after_equals a)
           | |- context [if ?b then _ else _] => destruct b
           end;
      try discriminate; intros [= <-]; simpl; auto;
      eapply extract_int_range; eassumption.
  - intros z. split; [|unfold clamp_int, INT_MIN, INT_MAX; lia].
    unfold parse_line. rewrite line_nonempty by assumption.
    read_next_word. simpl (String.eqb "SUBMIT" _). cbv iota.
    do 4 read_next_word.
    rewrite extract_int_decimal by auto using gap_all_space.
    reflexivity.
  - intros w Hw Hnum.
    unfold parse_line. rewrite line_nonempty by assumption.
    read_next_word. simpl (String.eqb "SUBMIT" _). cbv iota.
    do 4 read_next_word.
    pose proof (extract_int_not_number g5 w r None (gap_all_space g5 H5) Hw Hr Hnum)
      as Hzero.
    destruct (extract_int {| buffer := g5 +:+ w +:+ r; failbit := false |} None)
      as [iss time]. simpl in Hzero. subst time. reflexivity.
Qed.

Lemma parsed_numbers_in_range_witness :
  parse_line "SUBMIT T A Accepted AT 99999999999" =
    Call (SUBMIT "T" "A" "Accepted" 2147483647) ∧
  parse_line "SUBMIT T A Accepted AT -99999999999" =
    Call (SUBMIT "T" "A" "Accepted" (-2147483648)) ∧
  parse_line "SUBMIT T A Accepted AT -x1" = Call (SUBMIT "T" "A" "Accepted" 0).
Proof.
  destruct (parsed_numbers_in_range "" " " " " " " " " " " "T" "A" "Accepted" "AT" "")
    as (_ & Hnum & Hword);
    [repeat constructor; try discriminate..|].
  destruct (Hnum 99999999999) as (Hbig & _).
  destruct (Hnum (-99999999999)) as (Hsmall & _).
  split; [exact Hbig|]. split; [exact Hsmall|].
  apply (Hword "-x1"); [repeat constructor; discriminate|reflexivity].
Defined.

(** A line that holds white space only, or whose first word is not one
    of the nine command words, has no effect and writes nothing; white
    space before the command word is allowed. *)
Theorem other_lines_are_skipped :
  (∀ g, all_space g → parse_line g = Skip) ∧
  (∀ g w r, all_space g → word w → starts_blank r → w ∉ command_words →
            parse_line (g +:+ w +:+ r) = Skip) ∧
  (∀ u s line rest, parse_line line = Skip →
                    main_loop u s (line :: rest) = main_loop u s rest).
Proof.
  split; [|split].
  - intros g Hg. unfold parse_line.
    destruct (String.eqb g ""); [reflexivity|].
    rewrite (extract_string_end g) by assumption. reflexivity.
  - intros g w r Hg Hw Hr Hnot. unfold parse_line.
    rewrite line_nonempty by assumption.
    rewrite extract_string_word by assumption. cbv beta iota zeta.
    unfold command_words in Hnot. rewrite !not_elem_of_cons in Hnot.
    destruct Hnot as (N1 & N2 & N3 & N4 & N5 & N6 & N7 & N8 & N9 & _).
    apply String.eqb_neq in N1, N2, N3, N4, N5, N6, N7, N8, N9.
    rewrite N1, N2, N3, N4, N5, N6, N7, N8, N9. reflexivity.
  - intros u s line rest H. simpl. rewrite H. reflexivity.
Qed.

Lemma other_lines_are_skipped_witness :
  parse_line "  flush now" = Skip ∧ parse_line "   " = Skip.
Proof.
  destruct other_lines_are_skipped as (Hblank & Hword & _).
  split.
  - apply (Hword "  " "flush" " now"); repeat split; try discriminate.
    unfold command_words. rewrite !not_elem_of_cons.
    repeat split; try discriminate. apply not_elem_of_nil.
  - apply Hblank. repeat split.
Defined.

(** ** The whole program *)

Lemma main_loop_run (u : nat → Z) (s : ICPCSystem) (lines : list string) :
  main_loop u s lines = Some (run s (calls u lines)).
Proof.
  revert u s. induction lines as [|line rest IH]; intros u s; [reflexivity|].
  cbn [main_loop calls].
  destruct (parse_line line) as [|c|call|] eqn:Hline.
  - apply IH.
  - assert (Hstep : c ≠ END →
              (let '(s1, out1) := dispatch s c in
               match main_loop u s1 rest with
               | Some (s2, out2) => Some (s2, out1 ++ out2)
               | None => None
               end) = Some (run s (c :: calls u rest))).
    { intros Hc. cbn [run]. destruct (dispatch s c) as [s1 out1].
      rewrite IH. destruct (run s1 (calls u rest)) as [s2 out2].
      destruct c; try reflexivity. contradiction. }
    destruct c; try (apply Hstep; discriminate).
    cbn [run]. reflexivity.
  - cbn [run]. destruct (dispatch s (call (wrap_int (u 0%nat)))) as [s1 out1].
    rewrite IH. destruct (run s1 (calls (λ i, u (S i)) rest)) as [s2 out2].
    destruct (parse_line_uninitialised line call Hline)
      as [->|(t & p & st & ->)]; reflexivity.
  - exfalso. exact (parse_line_not_throws line Hline).
Qed.

Lemma calls_of_calls (u : nat → Z) (lines : list string) (cmds : list command) :
  Forall2 (λ line c, parse_line line = Call c) lines cmds → calls u lines = cmds.
Proof.
  induction 1 as [|line c lines cmds Hline _ IH]; [reflexivity|].
  cbn [calls]. rewrite Hline, IH. reflexivity.
Qed.

(** The program always runs to a result, and that result is the one of
    the command loop [run] on the calls that the lines of the input
    stand for, taken in the order of the lines: the final state is the
    state of [run], the text written is the rendering of its output, and
    the state is reachable, so the invariants proved of reachable states
    hold of every state the program ends in.  Where every line is a
    complete call, the calls are those of the lines, one for one. *)
Theorem main_is_run (u : nat → Z) (input : string) :
  main u input =
    Some (fst (run ICPCSystem_init (calls u (getlines input))),
          String.concat ""
            (render <$> snd (run ICPCSystem_init (calls u (getlines input))))) ∧
  reachable (fst (run ICPCSystem_init (calls u (getlines input)))) ∧
  (∀ cmds,
     Forall2 (λ line c, parse_line line = Call c) (getlines input) cmds →
     calls u (getlines input) = cmds).
Proof.
  split; [|split].
  - unfold main. rewrite main_loop_run.
    destruct (run ICPCSystem_init (calls u (getlines input))). reflexivity.
  - apply run_reachable, reachable_init.
  - apply calls_of_calls.
Qed.

Lemma main_is_run_witness :
  calls (λ _, 0) (getlines "ADD_TEAM A
SUBMIT A p Accepted AT 30
END
FLUSH") = [ADD_TEAM "A"; SUBMIT "A" "p" "Accepted" 30; END; FLUSH] ∧
  option_map snd (main (λ _, 0) "ADD_TEAM A
SUBMIT A p Accepted AT 30
END
FLUSH") =
    Some "[Info]Add successfully.\n[Info]Submit successfully.\n[Info]Competition ends.\n".
Proof.
  destruct (main_is_run (λ _, 0) "ADD_TEAM A
SUBMIT A p Accepted AT 30
END
FLUSH") as (Hmain & _ & Hcalls).
  split.
  - apply Hcalls. vm_compute (getlines _).
    repeat constructor.
  - rewrite Hmain. vm_compute. reflexivity.
Defined.

(** Nothing after an END line is read: the lines that follow it change
    neither the result nor whether there is one. *)
Theorem main_stops_at_end
    (u : nat → Z) (s : ICPCSystem) (before after : list string) (line : string) :
  parse_line line = Call END →
  main_loop u s (before ++ line :: after) = main_loop u s (before ++ [line]).
Proof.
  intros Hend. revert u s.
  induction before as [|l before IH]; intros u s; simpl.
  - rewrite Hend. reflexivity.
  - destruct (parse_line l) as [|c|call|]; try reflexivity; [apply IH| |].
    + destruct c; try reflexivity;
        destruct (dispatch s _) as [s1 out1]; rewrite IH; reflexivity.
    + destruct (dispatch s _) as [s1 out1]. rewrite IH. reflexivity.
Qed.

Lemma main_stops_at_end_witness :
  main_loop (λ _, 0) ICPCSystem_init
    (["ADD_TEAM A"] ++ "END" :: ["ADD_TEAM B"; "SUBMIT"]) =
    main_loop (λ _, 0) ICPCSystem_init (["ADD_TEAM A"] ++ ["END"]).
Proof. apply main_stops_at_end. reflexivity. Defined.

(** A run with an incomplete SUBMIT line: the submission is recorded
    with the value that the variable held, here 7, and the program goes
    on to the next line. *)
Example incomplete_line_scenario :
  main (λ _, 7) "ADD_TEAM A
SUBMIT A p Accepted AT
QUERY_SUBMISSION A WHERE PROBLEM=ALL AND STATUS=ALL
END" =
    option_map
      (λ r, (fst r, "[Info]Add successfully.\n[Info]Submit successfully.\n[Info]Complete query submission.\nA p Accepted 7\n[Info]Competition ends.\n"))
      (main (λ _, 7) "ADD_TEAM A
SUBMIT A p Accepted AT 7
END").
Proof. vm_compute. reflexivity. Qed.

(** ** [getline] *)

Lemma getlines_line (line : string) (rest : string) :
  find_char "010" line = None →
  getlines (line +:+ String "010" rest) = line :: getlines rest.
Proof.
  induction line as [|c line IH]; [reflexivity|].
  rewrite append_cons. simpl. destruct (Ascii.eqb c "010") eqn:E; [discriminate|].
  destruct (find_char "010" line); [discriminate|].
  intros _. rewrite IH by reflexivity. reflexivity.
Qed.

Lemma getlines_last (line : string) :
  line ≠ EmptyString → find_char "010" line = None → getlines line = [line].
Proof.
  induction line as [|c line IH]; [contradiction|].
  intros _. simpl. destruct (Ascii.eqb c "010") eqn:E; [discriminate|].
  destruct (find_char "010" line) eqn:F; [discriminate|]. intros _.
  destruct line as [|c' line]; [reflexivity|].
  rewrite IH by (discriminate || reflexivity). reflexivity.
Qed.

(** The loop sees the lines of the input in order: a text made of lines
    that are each ended by a newline is read back as those lines, empty
    ones included, and a last line without a newline is read as well
    when it is not empty. *)
Theorem getlines_unlines (lines : list string) (last : string) :
  Forall (λ l, find_char "010" l = None) lines →
  find_char "010" last = None →
  getlines (unlines lines) = lines ∧
  (last ≠ EmptyString →
   getlines (unlines lines +:+ last) = lines ++ [last]).
Proof.
  intros Hlines Hlast. split.
  - induction Hlines as [|l lines Hl _ IH]; [reflexivity|].
    simpl. rewrite getlines_line by assumption. f_equal. exact IH.
  - intros Hne. induction Hlines as [|l lines Hl _ IH].
    + simpl. apply getlines_last; assumption.
    + simpl. rewrite <- IH.
      assert (Hassoc : (l +:+ String "010" (unlines lines)) +:+ last =
                       l +:+ String "010" (unlines lines +:+ last)).
      { clear. induction l as [|c l IHl]; [reflexivity|].
        rewrite !append_cons, IHl. reflexivity. }
      rewrite Hassoc. apply getlines_line. exact Hl.
Qed.

Lemma getlines_unlines_witness :
  getlines (unlines ["FLUSH"; ""; "FREEZE"]) = ["FLUSH"; ""; "FREEZE"] ∧
  getlines (unlines ["FLUSH"; ""] +:+ "END") = ["FLUSH"; ""; "END"].
Proof.
  destruct (getlines_unlines ["FLUSH"; ""] "END") as [_ H2];
    [repeat constructor|reflexivity|].
  destruct (getlines_unlines ["FLUSH"; ""; "FREEZE"] "") as [H1 _];
    [repeat constructor|reflexivity|].
  split; [exact H1|apply H2; discriminate].
Defined.

(** The other lines: the command word may be preceded by white space,
    START reads its second word as the duration, ADD_TEAM and
    QUERY_RANKING read one name, and whatever follows what a command
    reads is ignored. *)
Theorem parse_other_lines (g0 g1 g2 kw n r : string) (d : Z) :
  all_space g0 → gap g1 → gap g2 → word kw → word n → starts_blank r →
  INT_MIN ≤ d ≤ INT_MAX →
  parse_line (g0 +:+ "START" +:+ g1 +:+ kw +:+ g2 +:+ string_of_Z d +:+ r) =
    Call (START d) ∧
  parse_line (g0 +:+ "ADD_TEAM" +:+ g1 +:+ n +:+ r) = Call (ADD_TEAM n) ∧
  parse_line (g0 +:+ "QUERY_RANKING" +:+ g1 +:+ n +:+ r) = Call (QUERY_RANKING n) ∧
  parse_line (g0 +:+ "FLUSH" +:+ r) = Call FLUSH ∧
  parse_line (g0 +:+ "FREEZE" +:+ r) = Call FREEZE ∧
  parse_line (g0 +:+ "SCROLL" +:+ r) = Call SCROLL ∧
  parse_line (g0 +:+ "END" +:+ r) = Call END.
Proof.
  intros H0 H1 H2 Hkw Hn Hr Hd.
  assert (Hw : ∀ w, w ∈ command_words → word w) by apply command_word_is_word.
  unfold parse_line.
  rewrite !line_nonempty
    by (apply Hw; unfold command_words; rewrite !elem_of_cons; auto 10).
  rewrite !(extract_string_word g0)
    by (auto using starts_blank_gap;
        apply Hw; unfold command_words; rewrite !elem_of_cons; auto 10).
  cbv beta iota zeta.
  simpl (String.eqb "START" _). simpl (String.eqb "ADD_TEAM" _).
  simpl (String.eqb "QUERY_RANKING" _). simpl (String.eqb "FLUSH" _).
  simpl (String.eqb "FREEZE" _). simpl (String.eqb "SCROLL" _).
  simpl (String.eqb "END" _). cbv iota.
  rewrite !(extract_string_word g1) by auto using starts_blank_gap, gap_all_space.
  cbv beta iota zeta.
  rewrite extract_int_string_of_Z by auto using gap_all_space.
  repeat split.
Qed.

Lemma parse_other_lines_witness :
  parse_line "START DURATION 300" = Call (START 300) ∧
  parse_line " ADD_TEAM Team_1 and more" = Call (ADD_TEAM "Team_1") ∧
  parse_line "FLUSH" = Call FLUSH.
Proof.
  destruct (parse_other_lines "" " " " " "DURATION" "Team_1" "" 300)
    as (Hstart & _ & _ & Hflush & _);
    [repeat split; try discriminate; unfold INT_MIN, INT_MAX; lia..|].
  destruct (parse_other_lines " " " " " " "DURATION" "Team_1" " and more" 300)
    as (_ & Hadd & _);
    [repeat split; try discriminate; unfold INT_MIN, INT_MAX; lia..|].
  split; [exact Hstart|]. split; [exact Hadd|exact Hflush].
Defined.

(** ** The duration *)

(** START always succeeds and stores its argument; nothing ever reads
    it.  Whatever command comes next writes the same output and leaves
    the same teams, visible order, flag and log, whether or not a START
    came before it, and END changes nothing at all. *)
Theorem duration_is_never_read (s : ICPCSystem) (d : Z) (c : command) :
  snd (start s d) = [Text "[Info]Competition starts.\n"] ∧
  end_ s = (s, [Text "[Info]Competition ends.\n"]) ∧
  snd (dispatch (fst (start s d)) c) = snd (dispatch s c) ∧
  teams (fst (dispatch (fst (start s d)) c)) = teams (fst (dispatch s c)) ∧
  team_order (fst (dispatch (fst (start s d)) c)) = team_order (fst (dispatch s c)) ∧
  is_frozen (fst (dispatch (fst (start s d)) c)) = is_frozen (fst (dispatch s c)) ∧
  all_submissions (fst (dispatch (fst (start s d)) c)) =
    all_submissions (fst (dispatch s c)).
Proof.
  split; [reflexivity|]. split; [reflexivity|].
  unfold start. cbn [fst].
  destruct c as [d'|n|n p st tm| | | |n|n p st|]; cbn [dispatch].
  - repeat split; reflexivity.
  - unfold add_team. cbn [teams]. destruct (teams s !! n); repeat split; reflexivity.
  - unfold submit. cbn [teams]. destruct (teams s !! n); repeat split; reflexivity.
  - repeat split; reflexivity.
  - unfold freeze. cbn [is_frozen].
    destruct (is_frozen s) eqn:E; cbn [fst snd is_frozen teams team_order all_submissions];
      rewrite ?E; repeat split; reflexivity.
  - unfold scroll. cbn [is_frozen].
    destruct (is_frozen s) eqn:E; cbn [negb];
      [|cbn [fst snd is_frozen teams team_order all_submissions];
        rewrite ?E; repeat split; reflexivity].
    unfold update_scoreboard.
    cbn [teams team_order duration_time is_frozen all_submissions].
    destruct (print_scoreboard _ _ _). repeat split; reflexivity.
  - unfold query_ranking. cbn [teams is_frozen team_order].
    destruct (teams s !! n); repeat split; reflexivity.
  - unfold query_submission. cbn [teams]. destruct (teams s !! n);
      repeat split; reflexivity.
  - repeat split; reflexivity.
Qed.
